(** * tabix-py: the cffi wrapper [tabixffi.py] over the tabix engine

    The repository's Python source is the class [Tabix] of
    [tabix/tabixffi.py], a thin binding over a native library reached
    through the C declarations of its [ffi.cdef] block.  The wrapper is
    embedded from that file.  The native functions it calls
    ([ti_index_build], [ti_open], [ti_query], [ti_querys], [ti_read], ...)
    live in C files that are not part of the Python source; they are
    modelled from the specification of the engine and marked as such. *)

From Stdlib Require Import ZArith Lia Ascii String.
From stdpp Require Import base option list sorting gmap strings.

Local Open Scope string_scope.
Local Open Scope list_scope.
Local Open Scope Z_scope.

(** ** Errors and results *)

(** Modelled from the spec: the error taxonomy of the engine, whose C
    source is missing; the wrapper defines no error of its own. *)
Inductive error : Type :=
  | UnsortedInput
  | CoordinateOverflow
  | CorruptBlock
  | TruncatedIndex
  | BadMagic
  | UnknownSequence
  | InvalidRange
  | IndexMissing.

(** Modelled from the spec: the explicit result-or-error type the spec
    gives the engine's operations, whose C source is missing. *)
Inductive result (A : Type) : Type :=
  | Ok (a : A)
  | Err (e : error).
Arguments Ok {A} a.
Arguments Err {A} e.

Global Instance error_eq_dec : EqDecision error.
Proof. solve_decision. Defined.

(** ** Data model *)

(** [ti_conf_t] of the [ffi.cdef] block: preset, the 1-based sequence,
    begin and end columns, the comment character and the number of header
    lines to skip. *)
Record ti_conf_t : Type := mk_conf {
  preset : Z;
  sc : Z;
  bc : Z;
  ec : Z;
  meta_char : ascii;
  line_skip : Z
}.

(** Modelled from the spec: a line of the data file.  The engine sources
    that split a line into columns are missing; a line carries its raw text
    together with the (sequence, start, end) triple, 0-based half-open, that
    the configured columns derive from it. *)
Record line : Type := mk_line {
  raw : string;
  l_seq : string;
  l_beg : Z;
  l_end : Z
}.

(** Modelled from the spec: data model, C source missing.  A line beginning
    with the configured comment character. *)
Definition is_meta (c : ascii) (ln : line) : bool :=
  match raw ln with
  | String a _ => Ascii.eqb a c
  | EmptyString => false
  end.

(** Modelled from the spec: the Block Codec is missing.  A virtual offset
    is abstracted to the position of a line in file order, the one property
    of virtual offsets the index relies on (a line earlier in the file has
    the smaller offset).  A chunk is a pair (begin, end) of offsets and
    covers the lines at positions begin .. end-1. *)
Definition chunk : Type := (nat * nat)%type.

(** Modelled from the spec: data model, C source missing.  The positions a
    chunk covers. *)
Definition chunk_positions (c : chunk) : list nat := seq (fst c) (snd c - fst c).

(** ** Binning scheme *)

(** Modelled from the spec: the binning scheme (the C file is missing).
    Five levels of widths 512 Mb, 64 Mb, 8 Mb, 1 Mb and 128 Kb; the coarsest
    level is the single bin 0, each finer level has eight times the bins of
    the one above, numbered after all coarser bins. *)
Definition max_coord : Z := 2 ^ 29.

(** Modelled from the spec: binning scheme, C source missing.  Shifts of the
    levels below the root, finest first. *)
Definition level_shifts : list Z := [17; 20; 23; 26].

(** Modelled from the spec: binning scheme, C source missing.  Number of
    bins in the levels coarser than the level of shift [sh]. *)
Definition level_offset (sh : Z) : Z := (2 ^ (29 - sh) - 1) / 7.

(** Modelled from the spec: binning scheme, C source missing.  The finest
    bin whose span contains positions [b] ..  [e1]; the root when the
    interval straddles a boundary at every finer level. *)
Fixpoint bin_search (shifts : list Z) (b e1 : Z) : Z :=
  match shifts with
  | [] => 0
  | sh :: rest =>
      if Z.shiftr b sh =? Z.shiftr e1 sh
      then level_offset sh + Z.shiftr b sh
      else bin_search rest b e1
  end.

(** Modelled from the spec: binning scheme, C source missing.  [binOf(start,
    end)]: the bin a record is filed under at build time. *)
Definition binOf (s e : Z) : Z := bin_search level_shifts s (e - 1).

(** Modelled from the spec: binning scheme, C source missing.  The bins of
    one level that meet positions [b] ..  [e1]. *)
Definition level_bins (b e1 sh : Z) : list Z :=
  map (fun k => level_offset sh + Z.shiftr b sh + Z.of_nat k)
      (seq 0 (Z.to_nat (Z.shiftr e1 sh - Z.shiftr b sh + 1))).

(** Modelled from the spec: binning scheme, C source missing.  Every bin at
    every level whose span meets [s, e), coarsest first. *)
Definition binsOverlapping (s e : Z) : list Z :=
  let b := Z.max 0 s in
  let e1 := Z.min max_coord e - 1 in
  if e1 <? b then []
  else 0 :: flat_map (level_bins b e1) (rev level_shifts).

(** ** Index *)

(** Modelled from the spec: index, C source missing.  Width of a window of
    the linear index: 16384 positions. *)
Definition window_shift : Z := 14.

(** Modelled from the spec: index, C source missing.  The window of a
    coordinate; a negative coordinate counts as 0. *)
Definition window_of (x : Z) : nat := Z.to_nat (Z.shiftr (Z.max 0 x) window_shift).

(** Modelled from the spec: the index of one sequence, a map from bin to
    its chunk list in file order and the linear index of minimum offsets.
    Slot [w] of the linear index holds the minimum offset among the records
    that reach window [w] or a later one; a record spanning several windows
    counts with the last window its interval touches. *)
Record seq_index : Type := mk_seq_index {
  bins : gmap Z (list chunk);
  linear : list nat
}.

(** Modelled from the spec: index, C source missing.  The index of a
    sequence with no record yet. *)
Definition empty_seq_index : seq_index := mk_seq_index ∅ [].

(** Modelled from the spec: the index, with the build metadata, the
    sequence name dictionary in insertion order and one [seq_index] per
    sequence. *)
Record ti_index_t : Type := mk_index {
  idx_conf : ti_conf_t;
  names : list string;
  seqs : gmap string seq_index
}.

(** ** Index builder *)

(** Modelled from the spec: index builder, C source missing.  File a record
    at offset [o] under a chunk list: extend the last chunk when it ends at
    [o], open a new chunk otherwise. *)
Fixpoint file_chunk (o : nat) (cs : list chunk) : list chunk :=
  match cs with
  | [] => [(o, S o)]
  | c :: rest =>
      match rest with
      | [] => if decide (snd c = o) then [(fst c, S o)] else [c; (o, S o)]
      | _ :: _ => c :: file_chunk o rest
      end
  end.

(** Modelled from the spec: index builder, C source missing.  The last
    window the interval of a line touches. *)
Definition last_window (ln : line) : nat := window_of (l_end ln - 1).

(** Modelled from the spec: index builder, C source missing.  The linear
    index after a record at offset [o]: slots up to the record's last window
    that are still unset take [o]; slots already set hold the offset of an
    earlier record and keep it. *)
Definition extend_linear (o : nat) (ln : line) (lin : list nat) : list nat :=
  lin ++ replicate (S (last_window ln) - length lin) o.

(** Modelled from the spec: index builder, C source missing.  File a record
    under its bin and update the linear index. *)
Definition add_record (o : nat) (ln : line) (si : seq_index) : seq_index :=
  let b := binOf (l_beg ln) (l_end ln) in
  mk_seq_index
    (<[b := file_chunk o (default [] (bins si !! b))]> (bins si))
    (extend_linear o ln (linear si)).

(** Modelled from the spec: index builder, C source missing.  State of a
    build: the dictionary so far, the per-sequence indexes and the sequence
    and start of the previous record. *)
Record build_state : Type := mk_build_state {
  st_names : list string;
  st_seqs : gmap string seq_index;
  st_last : option (string * Z)
}.

(** Modelled from the spec: index builder, C source missing.  The state
    before the first line. *)
Definition empty_build_state : build_state := mk_build_state [] ∅ None.

(** Modelled from the spec: index builder, C source missing.  Grouping and
    sortedness of a record against the previous one: within the same
    sequence the start may not decrease; a change of sequence must introduce
    a name the dictionary does not hold yet. *)
Definition check_order (ln : line) (st : build_state) : result (list string) :=
  match st_last st with
  | Some (n, s) =>
      if String.eqb n (l_seq ln)
      then (if l_beg ln <? s then Err UnsortedInput else Ok (st_names st))
      else (if bool_decide (l_seq ln ∈ st_names st) then Err UnsortedInput
            else Ok (st_names st ++ [l_seq ln]))
  | None => Ok (st_names st ++ [l_seq ln])
  end.

(** Modelled from the spec: index builder, C source missing.  Zero-length
    and inverted intervals are rejected, as are intervals beyond the largest
    coordinate of the binning scheme. *)
Definition check_interval (ln : line) : result unit :=
  if l_end ln <=? l_beg ln then Err InvalidRange
  else if (l_beg ln <? 0) || (max_coord <? l_end ln) then Err CoordinateOverflow
  else Ok tt.

(** Modelled from the spec: index builder, C source missing.  Index one
    record: order, interval, then filing under its sequence. *)
Definition index_line (o : nat) (ln : line) (st : build_state) : result build_state :=
  match check_order ln st with
  | Err e => Err e
  | Ok nms =>
      match check_interval ln with
      | Err e => Err e
      | Ok _ =>
          let si := default empty_seq_index (st_seqs st !! l_seq ln) in
          Ok (mk_build_state nms
                (<[l_seq ln := add_record o ln si]> (st_seqs st))
                (Some (l_seq ln, l_beg ln)))
      end
  end.

(** Modelled from the spec: index builder, C source missing.  A line that is
    not indexed: one of the leading header lines or a comment line. *)
Definition skipped (c : ti_conf_t) (o : nat) (ln : line) : bool :=
  (Z.of_nat o <? line_skip c) || is_meta (meta_char c) ln.

(** Modelled from the spec: index builder, C source missing.  Stream the
    lines in file order, the offset counting every line; the first error
    aborts the build. *)
Fixpoint build_lines (c : ti_conf_t) (o : nat) (lns : list line)
    (st : build_state) : result build_state :=
  match lns with
  | [] => Ok st
  | ln :: rest =>
      if skipped c o ln then build_lines c (S o) rest st
      else match index_line o ln st with
           | Ok st' => build_lines c (S o) rest st'
           | Err e => Err e
           end
  end.

(** Modelled from the spec: [build(sortedRecords, columnConfig)], the
    index builder (its C file is missing). *)
Definition build_index (c : ti_conf_t) (lns : list line) : result ti_index_t :=
  match build_lines c 0 lns empty_build_state with
  | Ok st => Ok (mk_index c (st_names st) (st_seqs st))
  | Err e => Err e
  end.

(** ** Region parser *)

(** Modelled from the spec: region parser, C source missing.  A normalized
    query: sequence id, start and end, 0-based half-open. *)
Record region : Type := mk_region {
  r_tid : nat;
  r_beg : Z;
  r_end : Z
}.

(** Modelled from the spec: region parser, C source missing.  End of a
    whole-sequence query: the largest coordinate of the scheme. *)
Definition sentinel_end : Z := max_coord.

(** Modelled from the spec: region parser, C source missing.  Position of a
    name in the dictionary, by exact comparison. *)
Fixpoint seq_id (nms : list string) (name : string) : option nat :=
  match nms with
  | [] => None
  | n :: rest =>
      if String.eqb n name then Some O
      else match seq_id rest name with
           | Some i => Some (S i)
           | None => None
           end
  end.

(** Modelled from the spec: region parser, C source missing.  Split a string
    at the first occurrence of a character. *)
Fixpoint split_at (c : ascii) (s : string) : option (string * string) :=
  match s with
  | EmptyString => None
  | String a s' =>
      if Ascii.eqb a c then Some (EmptyString, s')
      else match split_at c s' with
           | Some (l, r) => Some (String a l, r)
           | None => None
           end
  end.

(** Modelled from the spec: region parser, C source missing.  The value of a
    decimal digit. *)
Definition digit_of (a : ascii) : option Z :=
  let n := Z.of_N (N_of_ascii a) in
  if (48 <=? n) && (n <=? 57) then Some (n - 48) else None.

(** Modelled from the spec: region parser, C source missing.  Decimal
    digits, most significant first. *)
Fixpoint parse_digits (acc : Z) (s : string) : option Z :=
  match s with
  | EmptyString => Some acc
  | String a s' =>
      match digit_of a with
      | Some d => parse_digits (10 * acc + d) s'
      | None => None
      end
  end.

(** Modelled from the spec: region parser, C source missing.  A non-empty
    run of decimal digits. *)
Definition parse_dec (s : string) : option Z :=
  match s with
  | EmptyString => None
  | _ => parse_digits 0 s
  end.

(** Modelled from the spec: region parser, C source missing.  The id of a
    sequence name, or [UnknownSequence]. *)
Definition lookup_seq (nms : list string) (name : string) : result nat :=
  match seq_id nms name with
  | Some i => Ok i
  | None => Err UnknownSequence
  end.

(** Modelled from the spec: the region parser on an expression
    [SEQNAME[:START[-END]]] (native [ti_querys] hands its string to it; the
    C file is missing).  START and END are 1-based inclusive and become
    [START - 1] and [END]. *)
Definition parse_region (nms : list string) (s : string) : result region :=
  match split_at ":" s with
  | None =>
      match lookup_seq nms s with
      | Ok i => Ok (mk_region i 0 sentinel_end)
      | Err e => Err e
      end
  | Some (nm, rest) =>
      match lookup_seq nms nm with
      | Err e => Err e
      | Ok i =>
          match split_at "-" rest with
          | None =>
              match parse_dec rest with
              | Some st => Ok (mk_region i (st - 1) sentinel_end)
              | None => Err InvalidRange
              end
          | Some (a, b) =>
              match parse_dec a, parse_dec b with
              | Some st, Some en =>
                  if en <? st then Err InvalidRange
                  else Ok (mk_region i (st - 1) en)
              | _, _ => Err InvalidRange
              end
          end
      end
  end.

(** Modelled from the spec: the region parser on a structured triple,
    already 0-based half-open (native [ti_query]). *)
Definition region_of_triple (nms : list string) (name : string) (b e : Z)
    : result region :=
  match lookup_seq nms name with
  | Err err => Err err
  | Ok i => if e <? b then Err InvalidRange else Ok (mk_region i b e)
  end.

(** ** Query engine *)

(** Modelled from the spec: query engine, C source missing.  [rs, re) and
    [qs, qe) have a position in common. *)
Definition intersects (rs re qs qe : Z) : bool := Z.max rs qs <? Z.min re qe.

(** Modelled from the spec: query engine, C source missing.  Steps (2) and
    (3): the chunks filed under the candidate bins. *)
Definition candidate_chunks (si : seq_index) (qs qe : Z) : list chunk :=
  flat_map (fun b => default [] (bins si !! b)) (binsOverlapping qs qe).

(** Modelled from the spec: query engine, C source missing.  Step (4):
    discard the chunks that end below the linear index's minimum offset for
    the window of the query start; a window the linear index has no slot for
    holds no data. *)
Definition prune (si : seq_index) (qs : Z) (cs : list chunk) : list chunk :=
  match linear si !! window_of qs with
  | None => []
  | Some m => filter (fun c => (m <= snd c)%nat) cs
  end.

(** Modelled from the spec: query engine, C source missing.  Order of chunks
    by begin offset. *)
Definition chunk_le (c1 c2 : chunk) : Prop := (fst c1 <= fst c2)%nat.

(** Modelled from the spec: query engine, C source missing.  The order of
    chunks is decidable. *)
Global Instance chunk_le_dec c1 c2 : Decision (chunk_le c1 c2).
Proof. unfold chunk_le. apply _. Defined.

(** Modelled from the spec: query engine, C source missing.  Merge into the
    running chunk [cur] every following chunk that overlaps it or is
    adjacent to it. *)
Fixpoint coalesce (cur : chunk) (cs : list chunk) : list chunk :=
  match cs with
  | [] => [cur]
  | c :: rest =>
      if decide (fst c <= snd cur)%nat
      then coalesce (fst cur, Nat.max (snd cur) (snd c)) rest
      else cur :: coalesce c rest
  end.

(** Modelled from the spec: query engine, C source missing.  Step (5): sort
    by begin offset, then merge. *)
Definition merge_chunks (cs : list chunk) : list chunk :=
  match merge_sort chunk_le cs with
  | [] => []
  | c :: rest => coalesce c rest
  end.

(** Modelled from the spec: query engine, C source missing.  Steps (2) to
    (5) together: the merged chunks a query scans. *)
Definition query_chunks (si : seq_index) (qs qe : Z) : list chunk :=
  merge_chunks (prune si qs (candidate_chunks si qs qe)).

(** Modelled from the spec: query engine, C source missing.  A native query
    iterator: the query and the positions still to scan, the merged chunks
    laid out in order. *)
Record ti_iter : Type := mk_iter {
  it_seq : string;
  it_beg : Z;
  it_end : Z;
  it_todo : list nat
}.

(** Modelled from the spec: [query(index, sequenceId, start, end)], steps
    (1) to (5) (the C file is missing). *)
Definition engine_query (idx : ti_index_t) (r : region) : result ti_iter :=
  match names idx !! r_tid r with
  | None => Err UnknownSequence
  | Some name =>
      let si := default empty_seq_index (seqs idx !! name) in
      Ok (mk_iter name (r_beg r) (r_end r)
            (flat_map chunk_positions (query_chunks si (r_beg r) (r_end r))))
  end.

(** Modelled from the spec: query engine, C source missing.  Step (7): the
    final check on a candidate line. *)
Definition matches (c : ti_conf_t) (name : string) (qs qe : Z) (ln : line) : bool :=
  negb (is_meta (meta_char c) ln)
  && String.eqb (l_seq ln) name
  && intersects (l_beg ln) (l_end ln) qs qe.

(** Modelled from the spec: query engine, C source missing.  Step (6): read
    forward through the positions to scan up to the next line that passes
    the final check; reading past the last line of the file is the end of
    the stream. *)
Fixpoint scan (c : ti_conf_t) (lns : list line) (name : string) (qs qe : Z)
    (todo : list nat) : option (string * list nat) :=
  match todo with
  | [] => None
  | p :: rest =>
      match lns !! p with
      | None => None
      | Some ln =>
          if matches c name qs qe ln then Some (raw ln, rest)
          else scan c lns name qs qe rest
      end
  end.

(** Modelled from the spec: query engine, C source missing.  One pull on the
    lazy sequence. *)
Definition iter_read (c : ti_conf_t) (lns : list line) (it : ti_iter)
    : option string * ti_iter :=
  match scan c lns (it_seq it) (it_beg it) (it_end it) (it_todo it) with
  | Some (r, rest) => (Some r, mk_iter (it_seq it) (it_beg it) (it_end it) rest)
  | None => (None, mk_iter (it_seq it) (it_beg it) (it_end it) [])
  end.

(** ** The native library behind the [ffi.cdef] declarations *)

(** Modelled from the spec: native library, C source missing.  [tabix_t]: an
    open engine on a data file, its stream handle and its index once loaded
    ([idx] is null before the lazy load). *)
Record tabix_t : Type := mk_tabix {
  t_fn : string;
  t_fp : nat;
  idx : option ti_index_t
}.

(** Modelled from the spec: native library, C source missing.  The file
    system and the native heap: data files and index files by path, open
    stream handles, open engines and live query iterators by address, and
    the next fresh address.  An index file holds the index it decodes to
    (the serializer is specified to round-trip exactly). *)
Record world : Type := mk_world {
  data_files : gmap string (list line);
  index_files : gmap string ti_index_t;
  open_streams : gset nat;
  engines : gmap nat tabix_t;
  iters : gmap nat ti_iter;
  next_ptr : nat
}.

(** Modelled from the spec: native library, C source missing.  Path of the
    companion index of a data file. *)
Definition tbi (fn : string) : string := String.append fn ".tbi".

(** Modelled from the spec: [buildIndex], which persists the index only
    when the whole build succeeded (the C file is missing).  A data file
    that cannot be read as a block stream is a [CorruptBlock]. *)
Definition engine_build (w : world) (fn : string) (conf : ti_conf_t) : result world :=
  match data_files w !! fn with
  | None => Err CorruptBlock
  | Some lns =>
      match build_index conf lns with
      | Err e => Err e
      | Ok ix =>
          Ok (mk_world (data_files w) (<[tbi fn := ix]> (index_files w))
                (open_streams w) (engines w) (iters w) (next_ptr w))
      end
  end.

(** Modelled from the spec: native library, C source missing.  [int
    ti_index_build(const char *fn, const ti_conf_t *conf)]: the C convention
    of a negative status for every failure. *)
Definition ti_index_build (w : world) (fn : string) (conf : ti_conf_t) : Z * world :=
  match engine_build w fn conf with
  | Ok w' => (0, w')
  | Err _ => (-1, w)
  end.

(** Modelled from the spec: native library, C source missing.  [tabix_t
    *ti_open(const char *fn, const char *fnidx)]: null when the data file
    cannot be opened. *)
Definition ti_open (w : world) (fn : string) : option nat * world :=
  match data_files w !! fn with
  | None => (None, w)
  | Some _ =>
      let p := next_ptr w in
      (Some p,
       mk_world (data_files w) (index_files w) ({[ S p ]} ∪ open_streams w)
         (<[p := mk_tabix fn (S p) None]> (engines w)) (iters w) (S (S p)))
  end.

(** Modelled from the spec: native library, C source missing.  [int
    ti_lazy_index_load(tabix_t *t)]: load the companion index unless already
    loaded. *)
Definition ti_lazy_index_load (w : world) (t : option nat) : Z * world :=
  match t with
  | None => (-1, w)
  | Some p =>
      match engines w !! p with
      | None => (-1, w)
      | Some e =>
          match idx e with
          | Some _ => (0, w)
          | None =>
              match index_files w !! tbi (t_fn e) with
              | None => (-1, w)
              | Some ix =>
                  (0, mk_world (data_files w) (index_files w) (open_streams w)
                        (<[p := mk_tabix (t_fn e) (t_fp e) (Some ix)]> (engines w))
                        (iters w) (next_ptr w))
              end
          end
      end
  end.

(** Modelled from the spec: [close(handle)], idempotent, releases the
    stream handle of the engine (the C file is missing). *)
Definition ti_close (w : world) (p : nat) : world :=
  match engines w !! p with
  | None => w
  | Some e =>
      mk_world (data_files w) (index_files w) (open_streams w ∖ {[ t_fp e ]})
        (delete p (engines w)) (iters w) (next_ptr w)
  end.

(** Modelled from the spec: native library, C source missing.  [const char
    **ti_seqname(const ti_index_t *idx, int *n)]: the names in dictionary
    order and their number. *)
Definition ti_seqname (ix : ti_index_t) : list string * nat :=
  (names ix, length (names ix)).

(** Modelled from the spec: native library, C source missing.  [const
    ti_conf_t *ti_get_conf(ti_index_t *idx)]: the build metadata. *)
Definition ti_get_conf (ix : ti_index_t) : ti_conf_t := idx_conf ix.

(** Modelled from the spec: native library, C source missing.  Start a
    native query from a region parser applied to the dictionary: the engine
    result, before the C convention of a null iterator. *)
Definition start_query (w : world) (p : nat)
    (parse : list string -> result region) : result ti_iter :=
  match engines w !! p with
  | None => Err IndexMissing
  | Some e =>
      match idx e with
      | None => Err IndexMissing
      | Some ix =>
          match parse (names ix) with
          | Err err => Err err
          | Ok r => engine_query ix r
          end
      end
  end.

(** Modelled from the spec: native library, C source missing.  The C
    convention for a query: a fresh iterator address on success, the null
    iterator on every error. *)
Definition alloc_iter (w : world) (r : result ti_iter) : option nat * world :=
  match r with
  | Err _ => (None, w)
  | Ok it =>
      let p := next_ptr w in
      (Some p,
       mk_world (data_files w) (index_files w) (open_streams w) (engines w)
         (<[p := it]> (iters w)) (S p))
  end.

(** Modelled from the spec: native library, C source missing.  [ti_iter_t
    ti_query(tabix_t *t, const char *name, int beg, int end)] *)
Definition ti_query (w : world) (p : nat) (name : string) (b e : Z)
    : option nat * world :=
  alloc_iter w (start_query w p (fun nms => region_of_triple nms name b e)).

(** Modelled from the spec: native library, C source missing.  [ti_iter_t
    ti_querys(tabix_t *t, const char *reg)] *)
Definition ti_querys (w : world) (p : nat) (reg : string) : option nat * world :=
  alloc_iter w (start_query w p (fun nms => parse_region nms reg)).

(** Modelled from the spec: native library, C source missing.  What a
    read answers: a pointer to the next record, the null pointer at the end
    of the results, or no answer at all when the read dereferences a null
    iterator. *)
Inductive read_result : Type :=
  | ReadRecord (rec : string)
  | ReadEnd
  | ReadFault.

(** Modelled from the spec: native library, C source missing.  The pointer
    [ti_read] returns, null at the end of the results. *)
Definition read_of (r : option string) : read_result :=
  match r with
  | Some rec => ReadRecord rec
  | None => ReadEnd
  end.

(** Modelled from the spec: native library, C source missing.  [const char
    *ti_read(tabix_t *t, ti_iter_t iter, int *len)]: the next record, or
    null at the end.  A null iterator stands for a query that failed; the
    spec has such a failure reported, never turned into an empty result,
    and the read dereferences its iterator: a fault, as for every other
    null native pointer. *)
Definition ti_read (w : world) (p : nat) (iter : option nat) : read_result * world :=
  match iter with
  | None => (ReadFault, w)
  | Some i =>
      match iters w !! i, engines w !! p with
      | Some it, Some e =>
          match idx e, data_files w !! t_fn e with
          | Some ix, Some lns =>
              let '(r, it') := iter_read (idx_conf ix) lns it in
              (read_of r,
               mk_world (data_files w) (index_files w) (open_streams w)
                 (engines w) (<[i := it']> (iters w)) (next_ptr w))
          | _, _ => (ReadEnd, w)
          end
      | _, _ => (ReadEnd, w)
      end
  end.

(** Modelled from the spec: native library, C source missing.  [void
    ti_iter_destroy(ti_iter_t iter)] *)
Definition ti_iter_destroy (w : world) (iter : option nat) : world :=
  match iter with
  | None => w
  | Some i =>
      mk_world (data_files w) (index_files w) (open_streams w) (engines w)
        (delete i (iters w)) (next_ptr w)
  end.

(** ** The Python wrapper: class [Tabix] *)

(** Exceptions the wrapper can end with.  [NativeFault] stands for the
    dereference of a null native pointer, [RecursionError] for the
    interpreter's bound on nested calls; [OverflowError] is what cffi
    raises for a Python integer that does not fit the C integer type it is
    converted to, [UnicodeDecodeError] what [decode] raises. *)
Inductive exn : Type :=
  | AssertionError
  | TypeError
  | OverflowError
  | UnicodeDecodeError
  | Exception (msg : string)
  | RecursionError
  | NativeFault.

(** How a call of the wrapper ends. *)
Inductive outcome (A : Type) : Type :=
  | Return (a : A)
  | Raise (e : exn).
Arguments Return {A} a.
Arguments Raise {A} e.

(** An instance: the fields [_tabix], [_conf] and [fn] set by [__init__].
    [_tabix] is never null in an instance (the constructor ends in
    [NativeFault] before it would be), and [_conf] is held by value. *)
Record Tabix : Type := mk_Tabix {
  _tabix : nat;
  _conf : ti_conf_t;
  fn : string
}.

(** The Python integers cffi converts to the C types [int] and [int32_t]
    of the [cdef]; any other integer raises [OverflowError]. *)
Definition c_int (z : Z) : bool := (- 2 ^ 31 <=? z) && (z <? 2 ^ 31).

(** [str.endswith] *)
Definition endswith (s suf : string) : bool :=
  let n := String.length s in
  let m := String.length suf in
  (m <=? n)%nat && String.eqb (substring (n - m) m s) suf.

(** [op.exists(fn + ".tbi")] *)
Definition tbi_exists (w : world) (fname : string) : bool :=
  bool_decide (is_Some (index_files w !! tbi fname)).

(** The tail of [__init__], after the index is known to exist:
    [ti_open], [ti_lazy_index_load], [ti_get_conf(self._tabix.idx)].  An
    exception leaves the world as it stands where it is raised. *)
Definition open_engine (w : world) (fname : string) : outcome Tabix * world :=
  let '(t, w1) := ti_open w fname in
  let '(_, w2) := ti_lazy_index_load w1 t in
  match t with
  | None => (Raise NativeFault, w2)
  | Some p =>
      match engines w2 !! p with
      | Some e =>
          match idx e with
          | Some ix => (Return (mk_Tabix p (ti_get_conf ix) fname), w2)
          | None => (Raise NativeFault, w2)
          end
      | None => (Raise NativeFault, w2)
      end
  end.

(** [Tabix.build], with the constructor it ends in as a parameter:
    fill the configuration, assert that the native build did not return
    -1, construct the instance.  The fields [sc], [bc], [ec] and
    [line_skip] are [int32_t]: storing an integer that does not fit raises
    [OverflowError] before the native build is called. *)
Definition build_with (new : world -> string -> outcome Tabix * world)
    (w : world) (fname : string) (seq_col start_col end_col : Z)
    (comment : ascii) (skip : Z) : outcome Tabix * world :=
  if c_int seq_col && c_int start_col && c_int end_col && c_int skip then
    let conf := mk_conf 0 seq_col start_col end_col comment skip in
    let '(rc, w1) := ti_index_build w fname conf in
    if rc =? -1 then (Raise AssertionError, w1) else new w1 fname
  else (Raise OverflowError, w).

(** The body of [__init__], with [Tabix.build] as a parameter.  The
    instance [build] returns is not kept. *)
Definition init_with
    (build : world -> string -> Z -> Z -> Z -> ascii -> Z -> outcome Tabix * world)
    (w : world) (fname : string) : outcome Tabix * world :=
  if tbi_exists w fname then open_engine w fname
  else
    let built :=
      if endswith fname ".bed.gz" then build w fname 1 2 3 "#"%char 0
      else if endswith fname ".gff.gz" || endswith fname ".gtf.gz"
           then build w fname 1 4 5 "#"%char 0
      else if endswith fname ".vcf.gz" then build w fname 1 2 0 "#"%char 0
      else (Raise (Exception (String.append fname ".tbi not found and filetype not known")), w) in
    match built with
    | (Raise e, w1) => (Raise e, w1)
    | (Return _, w1) => open_engine w1 fname
    end.

(** [Tabix(fn)]: [__init__] and [build] call each other; [depth] bounds
    the nesting of calls. *)
Fixpoint Tabix_new (depth : nat) (w : world) (fname : string)
    : outcome Tabix * world :=
  match depth with
  | O => (Raise RecursionError, w)
  | S d => init_with (build_with (Tabix_new d)) w fname
  end.

(** [Tabix.build(fname, seq_col, start_col, end_col, comment, line_skip)] *)
Definition Tabix_build (depth : nat) (w : world) (fname : string)
    (seq_col start_col end_col : Z) (comment : ascii) (skip : Z)
    : outcome Tabix * world :=
  build_with (Tabix_new depth) w fname seq_col start_col end_col comment skip.

(** A byte of the ASCII range. *)
Definition is_ascii (c : ascii) : bool := (nat_of_ascii c <? 128)%nat.

(** Every byte of the string is in the ASCII range. *)
Fixpoint all_ascii (s : string) : bool :=
  match s with
  | EmptyString => true
  | String c rest => is_ascii c && all_ascii rest
  end.

(** [str.decode()] with the default codec, which is ASCII for the Python 2
    this module is written in (its doctest uses the [print] statement and
    shows [u'chr1']): the same characters, or [UnicodeDecodeError] at a
    byte above 127. *)
Definition decode (s : string) : outcome string :=
  if all_ascii s then Return s else Raise UnicodeDecodeError.

(** The list comprehension [[ffi.string(c).decode() for c in ...]]: the
    first name that does not decode ends it. *)
Fixpoint decode_all (l : list string) : outcome (list string) :=
  match l with
  | [] => Return []
  | s :: rest =>
      match decode s with
      | Raise e => Raise e
      | Return u =>
          match decode_all rest with
          | Raise e => Raise e
          | Return us => Return (u :: us)
          end
      end
  end.

(** The property [sequences]: read [self._tabix.idx], call [ti_seqname],
    decode [cnames[i]] for [i] in [range(n)]; the [free] of the array in
    [finally] has no effect on the world modelled here. *)
Definition sequences (w : world) (self : Tabix) : outcome (list string) :=
  match engines w !! _tabix self with
  | None => Raise NativeFault
  | Some e =>
      match idx e with
      | None => Raise NativeFault
      | Some ix =>
          let '(cnames, n) := ti_seqname ix in
          decode_all (map (fun i => nth i cnames EmptyString) (seq 0 n))
      end
  end.

(** [close] *)
Definition close (w : world) (self : Tabix) : world := ti_close w (_tabix self).

(** *** The generator [__call__] *)

(** Where a generator stands: created and not yet advanced, suspended at
    the [yield] inside the [try] with its native iterator, or finished. *)
Inductive gen_state : Type :=
  | GenCreated
  | GenSuspended (t_iter : option nat)
  | GenFinished.

(** A generator object of [__call__]: the arguments of the call and the
    point its body has reached. *)
Record generator : Type := mk_gen {
  g_self : Tabix;
  g_region : string;
  g_start : option Z;
  g_end : option Z;
  g_state : gen_state
}.

(** What one request to a generator produces. *)
Inductive step : Type :=
  | Yield (rec : string)
  | StopIteration
  | Raised (e : exn).

(** Calling [__call__] (or [query]) runs none of its body: it returns a
    generator. *)
Definition Tabix_call (self : Tabix) (region : string) (start end_ : option Z)
    : generator :=
  mk_gen self region start end_ GenCreated.

(** The same generator at another point of its body. *)
Definition set_state (g : generator) (s : gen_state) : generator :=
  mk_gen (g_self g) (g_region g) (g_start g) (g_end g) s.

(** The loop inside [try]: read; yield the record, or leave through
    [finally] when the read returns null.  A fault of the read leaves
    through [finally] as well. *)
Definition read_loop (w : world) (g : generator) (t_iter : option nat)
    : world * generator * step :=
  let '(next_rec, w1) := ti_read w (_tabix (g_self g)) t_iter in
  match next_rec with
  | ReadRecord r => (w1, set_state g (GenSuspended t_iter), Yield r)
  | ReadEnd => (ti_iter_destroy w1 t_iter, set_state g GenFinished, StopIteration)
  | ReadFault => (ti_iter_destroy w1 t_iter, set_state g GenFinished, Raised NativeFault)
  end.

(** [next(g)].  From the start the body runs to the first [yield]: the
    assertion when [start] is [None], the native query, then the loop.
    cffi converts the arguments of [ti_query] in turn before the call:
    [start] and [end] must fit the C [int] of the [cdef] ([OverflowError]
    otherwise), and [end] left [None] after a given [start] is no integer
    ([TypeError]).  The allocation of [s_len] and the reads of [_conf]
    between the query and the [try] change nothing and cannot fail.  A
    suspended generator resumes in the loop; the argument [convert] is
    never used. *)
Definition gen_next (w : world) (g : generator) : world * generator * step :=
  match g_state g with
  | GenCreated =>
      match g_start g with
      | None =>
          match g_end g with
          | Some _ => (w, set_state g GenFinished, Raised AssertionError)
          | None =>
              let '(t_iter, w1) := ti_querys w (_tabix (g_self g)) (g_region g) in
              read_loop w1 g t_iter
          end
      | Some s =>
          if c_int s then
            match g_end g with
            | None => (w, set_state g GenFinished, Raised TypeError)
            | Some e =>
                if c_int e then
                  let '(t_iter, w1) := ti_query w (_tabix (g_self g)) (g_region g) s e in
                  read_loop w1 g t_iter
                else (w, set_state g GenFinished, Raised OverflowError)
            end
          else (w, set_state g GenFinished, Raised OverflowError)
      end
  | GenSuspended t_iter => read_loop w g t_iter
  | GenFinished => (w, g, StopIteration)
  end.

(** [g.close()], which the interpreter also runs when a generator is
    dropped: [GeneratorExit] is raised at the [yield] and leaves through
    [finally]. *)
Definition gen_close (w : world) (g : generator) : world * generator :=
  match g_state g with
  | GenCreated => (w, set_state g GenFinished)
  | GenSuspended t_iter => (ti_iter_destroy w t_iter, set_state g GenFinished)
  | GenFinished => (w, g)
  end.

(** [g.throw(e)]: the exception is raised at the [yield], leaves through
    [finally] and reaches the caller. *)
Definition gen_throw (w : world) (g : generator) (e : exn)
    : world * generator * step :=
  match g_state g with
  | GenCreated => (w, set_state g GenFinished, Raised e)
  | GenSuspended t_iter => (ti_iter_destroy w t_iter, set_state g GenFinished, Raised e)
  | GenFinished => (w, g, Raised e)
  end.

(** What a [for] loop does with the answer to one request: keep the
    record and go on, or stop at the end or at an exception. *)
Definition conclude (rest : world -> generator -> option (list string * option exn * world))
    (r : world * generator * step) : option (list string * option exn * world) :=
  match r with
  | (w', g', Yield rec) =>
      match rest w' g' with
      | Some (rs, e, w'') => Some (rec :: rs, e, w'')
      | None => None
      end
  | (w', _, StopIteration) => Some ([], None, w')
  | (w', _, Raised e) => Some ([], Some e, w')
  end.

(** [for item in g]: advance to the end and collect the records; [None]
    when [fuel] requests do not reach the end. *)
Fixpoint iterate (fuel : nat) (w : world) (g : generator)
    : option (list string * option exn * world) :=
  match fuel with
  | O => None
  | S f => conclude (iterate f) (gen_next w g)
  end.

(** * Vocabulary of the properties

    Oracles, invariants and example data the theorems are stated with. *)

(** ** Chunks *)

(** Position [p] lies in one of the chunks. *)
Definition covered (p : nat) (cs : list chunk) : Prop :=
  exists c, c ∈ cs /\ (fst c <= p < snd c)%nat.

(** ** Indexed records and the builder's invariant *)

(** The indexed records of a file with their offsets: the lines that are
    neither header lines nor comment lines. *)
Fixpoint records_from (c : ti_conf_t) (o : nat) (lns : list line) : list (nat * line) :=
  match lns with
  | [] => []
  | ln :: rest =>
      if skipped c o ln then records_from c (S o) rest
      else (o, ln) :: records_from c (S o) rest
  end.

(** The chunks filed under bin [b]. *)
Definition chunks_of (si : seq_index) (b : Z) : list chunk := default [] (bins si !! b).

(** An interval the builder accepts: non-empty and within the coordinates
    of the binning scheme. *)
Definition valid_interval (ln : line) : Prop :=
  0 <= l_beg ln < l_end ln /\ l_end ln <= max_coord.

(** What a build state guarantees about the records [done] filed so far,
    all at offsets below [n]. *)
Record build_inv (n : nat) (done : list (nat * line)) (st : build_state) : Prop := {
  inv_filed : forall o ln, (o, ln) ∈ done ->
    exists si, st_seqs st !! l_seq ln = Some si /\
      covered o (chunks_of si (binOf (l_beg ln) (l_end ln))) /\
      (forall w, (w <= last_window ln)%nat ->
         exists m, linear si !! w = Some m /\ (m <= o)%nat);
  inv_valid : forall o ln, (o, ln) ∈ done -> valid_interval ln;
  inv_below : forall o ln, (o, ln) ∈ done -> (o < n)%nat;
  inv_linear : forall name si, st_seqs st !! name = Some si ->
    Forall (fun m => (m < n)%nat) (linear si);
  inv_chunks : forall name si b, st_seqs st !! name = Some si ->
    Forall (fun c => (exists ln, (fst c, ln) ∈ done) /\ (fst c < snd c)%nat)
           (chunks_of si b);
  inv_names : forall o ln, (o, ln) ∈ done -> l_seq ln ∈ st_names st;
  inv_last : forall nm s, st_last st = Some (nm, s) -> nm ∈ st_names st
}.

(** ** The scan and the brute-force oracle *)

(** What the scan of position [p] contributes. *)
Definition emit (c : ti_conf_t) (lns : list line) (name : string) (qs qe : Z)
    (p : nat) : option string :=
  match lns !! p with
  | Some ln => if matches c name qs qe ln then Some (raw ln) else None
  | None => None
  end.

(** The records successive reads produce from the positions to scan. *)
Fixpoint emitted (c : ti_conf_t) (lns : list line) (name : string) (qs qe : Z)
    (todo : list nat) : list string :=
  match todo with
  | [] => []
  | p :: rest =>
      match lns !! p with
      | None => []
      | Some ln =>
          if matches c name qs qe ln then raw ln :: emitted c lns name qs qe rest
          else emitted c lns name qs qe rest
      end
  end.

(** The brute-force oracle: read the file from its first line and keep
    the raw text of every indexed record of the sequence whose interval
    meets the query range. *)
Fixpoint linear_scan (c : ti_conf_t) (name : string) (qs qe : Z) (o : nat)
    (lns : list line) : list string :=
  match lns with
  | [] => []
  | ln :: rest =>
      if negb (skipped c o ln) && String.eqb (l_seq ln) name
         && intersects (l_beg ln) (l_end ln) qs qe
      then raw ln :: linear_scan c name qs qe (S o) rest
      else linear_scan c name qs qe (S o) rest
  end.

(** The oracle's verdict on the line at position [p] of the whole file. *)
Definition oracle_at (c : ti_conf_t) (lns : list line) (name : string) (qs qe : Z)
    (p : nat) : option string :=
  match lns !! p with
  | Some ln =>
      if negb (skipped c p ln) && String.eqb (l_seq ln) name
         && intersects (l_beg ln) (l_end ln) qs qe
      then Some (raw ln) else None
  | None => None
  end.

(** ** A loaded engine *)

(** Engine [p] is open in [w] on a data file with lines [lns], with the
    index [ix] loaded. *)
Definition engine_ready (w : world) (p : nat) (ix : ti_index_t) (lns : list line) : Prop :=
  exists e, engines w !! p = Some e /\ idx e = Some ix /\
            data_files w !! t_fn e = Some lns.

(** ** The example file of the doctest *)

(** The records of the end-to-end scenario: chr1 [1737, 2090), chr1
    [2090, 3000) and chr2 [10, 20), built with columns (1, 4, 5). *)
Definition example_fn : string := "example.gtf.gz".

(** Its three lines. *)
Definition example_lines : list line :=
  [ mk_line "chr1 ENSEMBL UTR 1737 2090" "chr1" 1737 2090;
    mk_line "chr1 ENSEMBL exon 2090 3000" "chr1" 2090 3000;
    mk_line "chr2 ENSEMBL exon 10 20" "chr2" 10 20 ].

(** The configuration the constructor uses for a [.gtf.gz] file. *)
Definition example_conf : ti_conf_t := mk_conf 0 1 4 5 "#"%char 0.

(** The index the builder produces for the example. *)
Definition example_index : ti_index_t :=
  match build_index example_conf example_lines with
  | Ok ix => ix
  | Err _ => mk_index example_conf [] ∅
  end.

(** The data file alone, before any index exists. *)
Definition fresh_world : world :=
  mk_world {[ example_fn := example_lines ]} ∅ ∅ ∅ ∅ 1.

(** The data file with its index, and an engine open on it. *)
Definition example_world : world :=
  mk_world {[ example_fn := example_lines ]} {[ tbi example_fn := example_index ]}
    {[ 2%nat ]} {[ 1%nat := mk_tabix example_fn 2 (Some example_index) ]} ∅ 3.

(** The instance on that engine. *)
Definition example_tabix : Tabix := mk_Tabix 1 example_conf example_fn.

(** ** Order of the input (C3) *)

(** Two records in file order respect the order of the input: in the
    same sequence, the later one does not start before the earlier. *)
Definition in_order (a b : nat * line) : Prop :=
  l_seq (snd a) = l_seq (snd b) -> l_beg (snd a) <= l_beg (snd b).


(** What a build state guarantees about the order of the records filed
    so far. *)
Record order_inv (done : list (nat * line)) (st : build_state) : Prop := {
  ord_sorted : StronglySorted in_order done;
  ord_last : forall nm s, st_last st = Some (nm, s) ->
    forall r, r ∈ done -> l_seq (snd r) = nm -> l_beg (snd r) <= s;
  ord_last_name : forall nm s, st_last st = Some (nm, s) -> nm ∈ st_names st;
  ord_names : forall r, r ∈ done -> l_seq (snd r) ∈ st_names st;
  ord_first : st_last st = None -> done = []
}.

(** A file whose second record starts before the first. *)
Definition unsorted_lines : list line :=
  [ mk_line "chr1 10 20" "chr1" 10 20; mk_line "chr1 5 8" "chr1" 5 8 ].

(** A world holding that file and nothing else. *)
Definition unsorted_world : world :=
  mk_world {[ "u.bed.gz" := unsorted_lines ]} ∅ ∅ ∅ ∅ 1.

(** ** Requests to a generator (C4) *)

(** What a caller can ask of a generator. *)
Inductive request : Type :=
  | Next
  | Close
  | Throw (e : exn).

(** The answer to one request. *)
Definition serve (w : world) (g : generator) (r : request) : world * generator * step :=
  match r with
  | Next => gen_next w g
  | Close => let '(w', g') := gen_close w g in (w', g', StopIteration)
  | Throw e => gen_throw w g e
  end.

(** A history of requests, the answers dropped. *)
Fixpoint serve_all (w : world) (g : generator) (rs : list request) : world * generator :=
  match rs with
  | [] => (w, g)
  | r :: rest => let '(w', g', _) := serve w g r in serve_all w' g' rest
  end.

(** Addresses are handed out in increasing order: no live iterator sits
    at or above the next fresh address. *)
Definition fresh_iters (w : world) : Prop :=
  forall i, (next_ptr w <= i)%nat -> iters w !! i = None.

(** The live iterators of a world [w] against those of the world [w0] in
    which the generator was created: a suspended generator holds one more,
    a created or finished generator none. *)
Definition gen_inv (w0 : world) (w : world) (g : generator) : Prop :=
  match g_state g with
  | GenCreated => w = w0
  | GenSuspended (Some i) => iters w0 !! i = None /\ delete i (iters w) = iters w0
  | GenSuspended None => iters w = iters w0
  | GenFinished => iters w = iters w0
  end.

(** The answer is a record. *)
Definition is_yield (s : step) : bool :=
  match s with
  | Yield _ => true
  | _ => false
  end.

(** What one request leaves behind: the invariant, and a finished
    generator unless the answer is a record. *)
Definition served (w0 : world) (r : world * generator * step) : Prop :=
  gen_inv w0 (fst (fst r)) (snd (fst r)) /\
  (is_yield (snd r) = false -> g_state (snd (fst r)) = GenFinished).

(** ** Region names (C5) *)

(** The sequence name of a region expression: the text before the first
    colon. *)
Definition region_name (s : string) : string :=
  match split_at ":" s with
  | Some (nm, _) => nm
  | None => s
  end.

(** ** The constructor after a build (C6, C9) *)

(** What the constructor does after dispatching to [build] with
    configuration [conf]: when the native build succeeds the index file
    holds the index built with [conf] and the instance is open on it; when
    it fails the assertion of [build] ends the constructor and nothing has
    been written or opened. *)
Definition built_and_opened (depth : nat) (w : world) (fname : string)
    (conf : ti_conf_t) : Prop :=
  match engine_build w fname conf with
  | Ok w1 =>
      exists (t : Tabix) (w' : world) (ix : ti_index_t) (lns : list line),
        Tabix_new depth w fname = (Return t, w') /\
        _conf t = conf /\ fn t = fname /\ idx_conf ix = conf /\
        data_files w !! fname = Some lns /\ build_index conf lns = Ok ix /\
        index_files w' !! tbi fname = Some ix /\
        engine_ready w' (_tabix t) ix lns
  | Err _ => Tabix_new depth w fname = (Raise AssertionError, w)
  end.

(** ** Declaration order (C8) *)

(** Enter a name in a dictionary unless it is there already. *)
Definition declare (acc : list string) (x : string) : list string :=
  if bool_decide (x ∈ acc) then acc else acc ++ [x].

(** The names of a list in the order in which they first appear. *)
Definition declared (l : list string) : list string := fold_left declare l [].

(** The sequence names of records, in file order. *)
Definition record_names (recs : list (nat * line)) : list string :=
  map (fun r => l_seq (snd r)) recs.

(** A file whose only sequence name has a byte outside ASCII (233), and a
    world holding that file and nothing else. *)
Definition latin_name : string :=
  String.append "chr" (String (ascii_of_nat 233) EmptyString).

Definition latin_lines : list line :=
  [ mk_line (String.append latin_name " 1 5") latin_name 1 5 ].

Definition latin_world : world :=
  mk_world {[ "l.bed.gz" := latin_lines ]} ∅ ∅ ∅ ∅ 1.

(** ** The rest of the class and of its use *)

(** [__repr__]: the class name and the path, as ["%s('%s')"] formats
    them. *)
Definition Tabix_repr (self : Tabix) : string :=
  String.append "Tabix('" (String.append (fn self) "')").

(** What a caller that stops early does with the answer to one request:
    keep the record and go on, or stop. *)
Definition proceed (rest : world -> generator -> list string * world * generator)
    (r : world * generator * step) : list string * world * generator :=
  match r with
  | (w', g', Yield rec) =>
      let '(rs, w'', g'') := rest w' g' in (rec :: rs, w'', g'')
  | (w', g', _) => ([], w', g')
  end.

(** A [for] loop left by [break] after at most [k] records: the records
    read, and the world and the generator as they are left. *)
Fixpoint advance (k : nat) (w : world) (g : generator)
    : list string * world * generator :=
  match k with
  | O => ([], w, g)
  | S k' => proceed (advance k') (gen_next w g)
  end.

(** Two worlds with the same files, index files, engines and streams. *)
Definition same_files (w w' : world) : Prop :=
  data_files w' = data_files w /\ index_files w' = index_files w /\
  engines w' = engines w /\ open_streams w' = open_streams w.

(** The oracle for a query given by a region parser: the linear scan for
    the region it parses to, nothing when it fails. *)
Definition scan_for (ix : ti_index_t) (lns : list line)
    (parse : list string -> result region) : list string :=
  match parse (names ix) with
  | Ok r =>
      match names ix !! r_tid r with
      | Some name => linear_scan (idx_conf ix) name (r_beg r) (r_end r) 0 lns
      | None => []
      end
  | Err _ => []
  end.

(** The raw text of every indexed record of a sequence, in file order. *)
Definition sequence_records (c : ti_conf_t) (name : string) (lns : list line)
    : list string :=
  map (fun r => raw (snd r))
      (List.filter (fun r => String.eqb (l_seq (snd r)) name) (records_from c 0 lns)).

(** The world the constructor leaves on the example file without index,
    and the instance it returns. *)
Definition built_world : world := snd (Tabix_new 2 fresh_world example_fn).

Definition built_tabix : Tabix := mk_Tabix 3 example_conf example_fn.

(** * Properties *)

(** ** Binning: the bin of a record is a candidate of every query it meets *)

Lemma shiftr_mono (a b n : Z) : 0 <= n -> a <= b -> Z.shiftr a n <= Z.shiftr b n.
Proof.
  intros Hn Hab. rewrite !Z.shiftr_div_pow2 by assumption.
  apply Z.div_le_mono; [apply Z.pow_pos_nonneg; lia | assumption].
Qed.

Lemma bin_search_cases (shifts : list Z) (b e1 : Z) :
  bin_search shifts b e1 = 0 \/
  exists sh, In sh shifts /\ Z.shiftr b sh = Z.shiftr e1 sh /\
             bin_search shifts b e1 = level_offset sh + Z.shiftr b sh.
Proof.
  induction shifts as [|sh rest IH]; simpl; [left; reflexivity|].
  destruct (Z.eqb_spec (Z.shiftr b sh) (Z.shiftr e1 sh)) as [Heq|Hne].
  - right. exists sh. auto.
  - destruct IH as [H0|(sh' & Hin & Heq & Hb)]; [left; assumption|].
    right. exists sh'. auto.
Qed.

Lemma level_bins_elem (b e1 sh k : Z) :
  Z.shiftr b sh <= k <= Z.shiftr e1 sh ->
  In (level_offset sh + k) (level_bins b e1 sh).
Proof.
  intros Hk. unfold level_bins. apply in_map_iff.
  exists (Z.to_nat (k - Z.shiftr b sh)). split; [lia|].
  apply in_seq. lia.
Qed.

Lemma intersects_spec (rs re qs qe : Z) :
  intersects rs re qs qe = true <-> exists x, rs <= x < re /\ qs <= x < qe.
Proof.
  unfold intersects. rewrite Z.ltb_lt. split.
  - intros H. exists (Z.max rs qs). lia.
  - intros (x & H1 & H2). lia.
Qed.

Lemma bin_is_candidate (rs re qs qe : Z) :
  0 <= rs < re -> re <= max_coord ->
  intersects rs re qs qe = true ->
  In (binOf rs re) (binsOverlapping qs qe).
Proof.
  intros Hr Hmax Hint. unfold intersects in Hint. apply Z.ltb_lt in Hint.
  assert (Hpos : 0 < max_coord) by (unfold max_coord; lia).
  unfold binsOverlapping.
  destruct (Z.ltb_spec (Z.min max_coord qe - 1) (Z.max 0 qs)) as [Hlt|Hge]; [lia|].
  unfold binOf.
  destruct (bin_search_cases level_shifts rs (re - 1))
    as [H0|(sh & Hin & Heq & Hb)]; rewrite ?H0, ?Hb; [left; reflexivity|].
  right. apply in_flat_map. exists sh. split; [apply in_rev; rewrite rev_involutive; assumption|].
  assert (Hsh : 0 <= sh).
  { unfold level_shifts in Hin. simpl in Hin. lia. }
  apply level_bins_elem. split.
  - rewrite Heq. apply shiftr_mono; lia.
  - apply shiftr_mono; lia.
Qed.

(** ** Chunks: filing, sorting and merging *)

Lemma elem_of_chunk_positions (p : nat) (c : chunk) :
  p ∈ chunk_positions c <-> (fst c <= p < snd c)%nat.
Proof. unfold chunk_positions. rewrite elem_of_seq. lia. Qed.

Lemma positions_covered (p : nat) (cs : list chunk) :
  p ∈ flat_map chunk_positions cs <-> covered p cs.
Proof.
  rewrite list_elem_of_In, in_flat_map. unfold covered. split.
  - intros (c & Hc & Hp). exists c.
    rewrite list_elem_of_In, <- elem_of_chunk_positions, list_elem_of_In. auto.
  - intros (c & Hc & Hp). exists c.
    rewrite <- list_elem_of_In, <- list_elem_of_In, elem_of_chunk_positions. auto.
Qed.

Lemma covered_cons (p : nat) (c : chunk) (cs : list chunk) :
  covered p (c :: cs) <-> (fst c <= p < snd c)%nat \/ covered p cs.
Proof.
  unfold covered. split.
  - intros (c' & Hin & Hp). apply elem_of_cons in Hin as [->|Hin]; [left; assumption|].
    right. exists c'. auto.
  - intros [Hp|(c' & Hin & Hp)].
    + exists c. split; [apply elem_of_cons; auto|assumption].
    + exists c'. split; [apply elem_of_cons; auto|assumption].
Qed.

Lemma covered_perm (p : nat) (cs cs' : list chunk) :
  cs ≡ₚ cs' -> covered p cs -> covered p cs'.
Proof.
  intros Hperm (c & Hin & Hp). exists c. split; [|assumption].
  rewrite <- Hperm. assumption.
Qed.

Lemma seq_strongly_sorted (b n : nat) : StronglySorted lt (seq b n).
Proof.
  revert b. induction n as [|n IH]; intros b; simpl; constructor.
  - apply IH.
  - apply Forall_forall. intros x Hx. apply elem_of_seq in Hx. lia.
Qed.

Global Instance chunk_le_trans : Transitive chunk_le.
Proof. unfold chunk_le. intros x y z. lia. Qed.

Global Instance chunk_le_total : Total chunk_le.
Proof. unfold chunk_le. intros x y. lia. Qed.

Lemma file_chunk_new (o : nat) (cs : list chunk) :
  Forall (fun c => (fst c < snd c)%nat) cs -> covered o (file_chunk o cs).
Proof.
  induction cs as [|c rest IH]; intros Hne; simpl.
  - exists (o, S o). split; [apply list_elem_of_singleton; reflexivity|simpl; lia].
  - apply Forall_cons in Hne as [Hc Hrest]. destruct rest as [|c' rest'].
    + destruct (decide (snd c = o)) as [He|He].
      * exists (fst c, S o). split; [apply list_elem_of_singleton; reflexivity|simpl; lia].
      * exists (o, S o). split; [|simpl; lia].
        apply elem_of_cons. right. apply list_elem_of_singleton. reflexivity.
    + apply covered_cons. right. apply IH. assumption.
Qed.

Lemma file_chunk_keeps (o p : nat) (cs : list chunk) :
  covered p cs -> covered p (file_chunk o cs).
Proof.
  induction cs as [|c rest IH]; intros Hcov.
  - destruct Hcov as (c & Hin & _). apply elem_of_nil in Hin. contradiction.
  - apply covered_cons in Hcov. simpl. destruct rest as [|c' rest'].
    + destruct Hcov as [Hp|(c0 & Hin & _)]; [|apply elem_of_nil in Hin; contradiction].
      destruct (decide (snd c = o)) as [He|He].
      * apply covered_cons. left. simpl. lia.
      * apply covered_cons. left. assumption.
    + apply covered_cons. destruct Hcov as [Hp|Hcov]; [left; assumption|].
      right. apply IH. assumption.
Qed.

(** Every chunk of a filed list begins where a chunk began before or at
    the new offset, and is non-empty. *)
Lemma file_chunk_begins (P : nat -> Prop) (o : nat) (cs : list chunk) :
  P o ->
  Forall (fun c => P (fst c) /\ (fst c < snd c)%nat) cs ->
  Forall (fun c => P (fst c) /\ (fst c < snd c)%nat) (file_chunk o cs).
Proof.
  intros Ho. induction cs as [|c rest IH]; intros Hall; simpl.
  - constructor; [simpl; split; [assumption|lia]|constructor].
  - apply Forall_cons in Hall as [Hc Hrest]. destruct rest as [|c' rest'].
    + destruct (decide (snd c = o)) as [He|He].
      * constructor; [simpl; split; [tauto|lia]|constructor].
      * constructor; [assumption|].
        constructor; [simpl; split; [assumption|lia]|constructor].
    + constructor; [assumption|]. apply IH. assumption.
Qed.

Lemma coalesce_covered (cur : chunk) (cs : list chunk) (p : nat) :
  StronglySorted chunk_le (cur :: cs) ->
  covered p (coalesce cur cs) <-> covered p (cur :: cs).
Proof.
  revert cur. induction cs as [|c rest IH]; intros cur Hs; simpl; [reflexivity|].
  apply StronglySorted_cons in Hs as [Hall Hs].
  pose proof Hs as Hs'. apply StronglySorted_cons in Hs' as [Hallc Hrest].
  apply Forall_cons in Hall as [Hc Hall].
  destruct (decide (fst c <= snd cur)%nat) as [Hadj|Hgap].
  - rewrite IH.
    + rewrite !covered_cons. unfold chunk_le in Hc. simpl.
      assert ((fst cur <= p < Nat.max (snd cur) (snd c))%nat <->
              (fst cur <= p < snd cur)%nat \/ (fst c <= p < snd c)%nat) as Hmax by lia.
      tauto.
    + apply StronglySorted_cons. split; [|assumption].
      eapply Forall_impl; [apply Hall|]. intros x Hx. exact Hx.
  - rewrite covered_cons, IH by assumption. rewrite (covered_cons p cur). reflexivity.
Qed.

Lemma sorted_covered_ge (c : chunk) (cs : list chunk) (p : nat) :
  StronglySorted chunk_le (c :: cs) -> covered p (c :: cs) -> (fst c <= p)%nat.
Proof.
  intros Hs (c' & Hin & Hp). apply StronglySorted_cons in Hs as [Hall _].
  apply elem_of_cons in Hin as [->|Hin]; [lia|].
  rewrite Forall_forall in Hall. specialize (Hall c' Hin). unfold chunk_le in Hall. lia.
Qed.

Lemma coalesce_sorted (cur : chunk) (cs : list chunk) :
  StronglySorted chunk_le (cur :: cs) ->
  StronglySorted lt (flat_map chunk_positions (coalesce cur cs)).
Proof.
  revert cur. induction cs as [|c rest IH]; intros cur Hs; simpl.
  - rewrite app_nil_r. apply seq_strongly_sorted.
  - pose proof Hs as Hs0.
    apply StronglySorted_cons in Hs as [Hall Hs].
    apply Forall_cons in Hall as [Hc Hall].
    pose proof Hs as Hs'. apply StronglySorted_cons in Hs' as [_ Hrest].
    destruct (decide (fst c <= snd cur)%nat) as [Hadj|Hgap].
    + apply IH. apply StronglySorted_cons. split; [|assumption].
      eapply Forall_impl; [apply Hall|]. intros x Hx. exact Hx.
    + simpl. apply StronglySorted_app_2.
      * intros x1 x2 H1 H2. apply elem_of_chunk_positions in H1.
        apply positions_covered in H2. apply coalesce_covered in H2; [|assumption].
        apply sorted_covered_ge in H2; [|assumption]. lia.
      * apply seq_strongly_sorted.
      * apply IH. assumption.
Qed.

Lemma merge_chunks_covered (cs : list chunk) (p : nat) :
  covered p (merge_chunks cs) <-> covered p cs.
Proof.
  unfold merge_chunks.
  pose proof (StronglySorted_merge_sort chunk_le cs) as Hs.
  pose proof (merge_sort_Permutation chunk_le cs) as Hperm.
  destruct (merge_sort chunk_le cs) as [|c rest].
  - split; intros Hcov; [|eapply covered_perm; [symmetry; apply Hperm|exact Hcov]].
    destruct Hcov as (c & Hin & _). apply elem_of_nil in Hin. contradiction.
  - rewrite coalesce_covered by assumption. split; apply covered_perm; [|symmetry]; assumption.
Qed.

Lemma merge_chunks_sorted (cs : list chunk) :
  StronglySorted lt (flat_map chunk_positions (merge_chunks cs)).
Proof.
  unfold merge_chunks.
  pose proof (StronglySorted_merge_sort chunk_le cs) as Hs.
  destruct (merge_sort chunk_le cs) as [|c rest]; [constructor|].
  apply coalesce_sorted. assumption.
Qed.

(** ** The builder files every record where a query will look for it *)

Lemma build_inv_empty : build_inv 0 [] empty_build_state.
Proof.
  split; simpl; intros.
  - apply elem_of_nil in H. contradiction.
  - apply elem_of_nil in H. contradiction.
  - apply elem_of_nil in H. contradiction.
  - rewrite lookup_empty in H. discriminate.
  - rewrite lookup_empty in H. discriminate.
  - apply elem_of_nil in H. contradiction.
  - discriminate.
Qed.

Lemma build_inv_weaken (n n' : nat) done st :
  (n <= n')%nat -> build_inv n done st -> build_inv n' done st.
Proof.
  intros Hle [Hf Hv Hb Hl Hc Hn Hlast]. split; try assumption.
  - intros o ln Hin. specialize (Hb o ln Hin). lia.
  - intros name si Hsi. eapply Forall_impl; [apply (Hl name si Hsi)|].
    simpl. intros m Hm. lia.
Qed.

Lemma chunks_of_add_same (o : nat) (ln : line) (si : seq_index) :
  chunks_of (add_record o ln si) (binOf (l_beg ln) (l_end ln))
  = file_chunk o (chunks_of si (binOf (l_beg ln) (l_end ln))).
Proof. unfold chunks_of, add_record. simpl. rewrite lookup_insert_eq. reflexivity. Qed.

Lemma chunks_of_add_other (o : nat) (ln : line) (si : seq_index) (b : Z) :
  b <> binOf (l_beg ln) (l_end ln) ->
  chunks_of (add_record o ln si) b = chunks_of si b.
Proof.
  intros Hb. unfold chunks_of, add_record. simpl.
  rewrite lookup_insert_ne by congruence. reflexivity.
Qed.

Lemma chunks_of_empty (b : Z) : chunks_of empty_seq_index b = [].
Proof. unfold chunks_of. simpl. rewrite lookup_empty. reflexivity. Qed.

Lemma add_record_keeps (o p : nat) (ln : line) (si : seq_index) (b : Z) :
  covered p (chunks_of si b) -> covered p (chunks_of (add_record o ln si) b).
Proof.
  intros Hcov. destruct (decide (b = binOf (l_beg ln) (l_end ln))) as [->|Hne].
  - rewrite chunks_of_add_same. apply file_chunk_keeps. assumption.
  - rewrite chunks_of_add_other by assumption. assumption.
Qed.

Lemma linear_add_keeps (o w m : nat) (ln : line) (si : seq_index) :
  linear si !! w = Some m -> linear (add_record o ln si) !! w = Some m.
Proof.
  intros Hw. simpl. unfold extend_linear.
  rewrite lookup_app_l; [assumption|]. apply lookup_lt_is_Some. eauto.
Qed.

Lemma linear_add_new (n o w : nat) (ln : line) (si : seq_index) :
  Forall (fun m => (m < n)%nat) (linear si) -> (n <= o)%nat ->
  (w <= last_window ln)%nat ->
  exists m, linear (add_record o ln si) !! w = Some m /\ (m <= o)%nat.
Proof.
  intros Hall Hn Hw. simpl. unfold extend_linear.
  destruct (decide (w < length (linear si))%nat) as [Hlt|Hge].
  - apply lookup_lt_is_Some in Hlt as [m Hm]. exists m.
    split; [rewrite lookup_app_l; [assumption|apply lookup_lt_is_Some; eauto]|].
    rewrite Forall_forall in Hall.
    specialize (Hall m (list_elem_of_lookup_2 _ _ _ Hm)). lia.
  - exists o. split; [|lia]. rewrite lookup_app_r by lia.
    apply lookup_replicate_2. lia.
Qed.

Lemma linear_add_bound (n o : nat) (ln : line) (si : seq_index) :
  Forall (fun m => (m < n)%nat) (linear si) -> (n <= o)%nat ->
  Forall (fun m => (m < S o)%nat) (linear (add_record o ln si)).
Proof.
  intros Hall Hn. simpl. unfold extend_linear. apply Forall_app. split.
  - eapply Forall_impl; [apply Hall|]. simpl. intros m Hm. lia.
  - apply Forall_replicate. lia.
Qed.

Lemma check_order_names (ln : line) (st : build_state) (nms : list string) :
  (forall nm s, st_last st = Some (nm, s) -> nm ∈ st_names st) ->
  check_order ln st = Ok nms ->
  l_seq ln ∈ nms /\ (forall x, x ∈ st_names st -> x ∈ nms).
Proof.
  intros Hlast. unfold check_order. destruct (st_last st) as [[nm s]|].
  - destruct (String.eqb_spec nm (l_seq ln)) as [Heq|Hne].
    + destruct (l_beg ln <? s); [discriminate|]. intros [= <-].
      split; [rewrite <- Heq; eapply Hlast; reflexivity|auto].
    + destruct (bool_decide (l_seq ln ∈ st_names st)); [discriminate|]. intros [= <-].
      split; [apply elem_of_app; right; apply list_elem_of_singleton; reflexivity|].
      intros x Hx. apply elem_of_app. auto.
  - intros [= <-].
    split; [apply elem_of_app; right; apply list_elem_of_singleton; reflexivity|].
    intros x Hx. apply elem_of_app. auto.
Qed.

Lemma check_interval_valid (ln : line) :
  check_interval ln = Ok tt <-> valid_interval ln.
Proof.
  unfold check_interval, valid_interval.
  destruct (Z.leb_spec (l_end ln) (l_beg ln)); [split; [discriminate|lia]|].
  destruct (Z.ltb_spec (l_beg ln) 0); simpl; [split; [discriminate|lia]|].
  destruct (Z.ltb_spec max_coord (l_end ln)); [split; [discriminate|lia]|].
  split; [lia|reflexivity].
Qed.

Lemma index_line_ok (o : nat) (ln : line) (st st' : build_state) :
  index_line o ln st = Ok st' ->
  exists nms, check_order ln st = Ok nms /\ valid_interval ln /\
    st' = mk_build_state nms
            (<[l_seq ln := add_record o ln
                 (default empty_seq_index (st_seqs st !! l_seq ln))]> (st_seqs st))
            (Some (l_seq ln, l_beg ln)).
Proof.
  unfold index_line. destruct (check_order ln st) as [nms|e]; [|discriminate].
  destruct (check_interval ln) as [[]|e] eqn:Hci; [|discriminate].
  intros [= <-]. exists nms. split; [reflexivity|].
  split; [apply check_interval_valid; assumption|reflexivity].
Qed.

(** The index of a sequence before a record is added: its linear index
    and its chunks respect the invariant, also when the sequence is new. *)
Lemma current_index_facts (n : nat) done st (name : string) :
  build_inv n done st ->
  let si := default empty_seq_index (st_seqs st !! name) in
  Forall (fun m => (m < n)%nat) (linear si) /\
  forall b, Forall (fun c => (exists ln, (fst c, ln) ∈ done) /\ (fst c < snd c)%nat)
                   (chunks_of si b).
Proof.
  intros Hinv. simpl. destruct (st_seqs st !! name) as [si|] eqn:Hsi; simpl.
  - split; [eapply inv_linear; eauto|]. intros b. eapply inv_chunks; eauto.
  - split; [constructor|]. intros b. rewrite chunks_of_empty. constructor.
Qed.

Lemma index_line_inv (n o : nat) done (ln : line) (st st' : build_state) :
  build_inv n done st -> (n <= o)%nat ->
  index_line o ln st = Ok st' ->
  build_inv (S o) (done ++ [(o, ln)]) st'.
Proof.
  intros Hinv Hn Hidx.
  apply index_line_ok in Hidx as (nms & Hord & Hval & ->).
  destruct (check_order_names ln st nms (inv_last _ _ _ Hinv) Hord) as [Hnew Hold].
  destruct (current_index_facts n done st (l_seq ln) Hinv) as [Hlin Hchk].
  set (si := default empty_seq_index (st_seqs st !! l_seq ln)) in *.
  assert (Hlift : forall cs,
    Forall (fun c => (exists l, (fst c, l) ∈ done) /\ (fst c < snd c)%nat) cs ->
    Forall (fun c => (exists l, (fst c, l) ∈ done ++ [(o, ln)]) /\ (fst c < snd c)%nat) cs).
  { intros cs Hcs. eapply Forall_impl; [apply Hcs|]. simpl.
    intros c [(l & Hl) Hne]. split; [|assumption]. exists l. apply elem_of_app. auto. }
  split; simpl.
  - intros o0 ln0 Hin. apply elem_of_app in Hin as [Hin|Hin].
    + destruct (inv_filed _ _ _ Hinv o0 ln0 Hin) as (si0 & Hsi0 & Hcov & Hlin0).
      destruct (decide (l_seq ln0 = l_seq ln)) as [Heq|Hne].
      * rewrite Heq, lookup_insert_eq. eexists. split; [reflexivity|].
        assert (si = si0) as Hsi by (unfold si; rewrite <- Heq, Hsi0; reflexivity).
        rewrite Hsi. split; [apply add_record_keeps; assumption|].
        intros w Hw. destruct (Hlin0 w Hw) as (m & Hm & Hle).
        exists m. split; [apply linear_add_keeps; assumption|assumption].
      * rewrite lookup_insert_ne by congruence. exists si0. auto.
    + apply list_elem_of_singleton in Hin. injection Hin as -> ->.
      rewrite lookup_insert_eq. eexists. split; [reflexivity|]. split.
      * rewrite chunks_of_add_same. apply file_chunk_new.
        eapply Forall_impl; [apply (Hchk (binOf (l_beg ln) (l_end ln)))|].
        simpl. tauto.
      * intros w Hw. eapply linear_add_new; eassumption.
  - intros o0 ln0 Hin. apply elem_of_app in Hin as [Hin|Hin].
    + eapply inv_valid; eauto.
    + apply list_elem_of_singleton in Hin. injection Hin as -> ->. assumption.
  - intros o0 ln0 Hin. apply elem_of_app in Hin as [Hin|Hin].
    + pose proof (inv_below _ _ _ Hinv o0 ln0 Hin). lia.
    + apply list_elem_of_singleton in Hin. injection Hin as -> ->. lia.
  - intros name si0 Hsi0. destruct (decide (l_seq ln = name)) as [Heq|Hne].
    + rewrite Heq, lookup_insert_eq in Hsi0. injection Hsi0 as <-.
      eapply linear_add_bound; eassumption.
    + rewrite lookup_insert_ne in Hsi0 by assumption.
      eapply Forall_impl; [apply (inv_linear _ _ _ Hinv name si0 Hsi0)|].
      simpl. intros m Hm. lia.
  - intros name si0 b Hsi0. destruct (decide (l_seq ln = name)) as [Heq|Hne].
    + rewrite Heq, lookup_insert_eq in Hsi0. injection Hsi0 as <-.
      destruct (decide (b = binOf (l_beg ln) (l_end ln))) as [->|Hb].
      * rewrite chunks_of_add_same.
        apply (file_chunk_begins (fun x => exists l, (x, l) ∈ done ++ [(o, ln)])).
        -- exists ln. apply elem_of_app. right. apply list_elem_of_singleton. reflexivity.
        -- apply Hlift. apply Hchk.
      * rewrite chunks_of_add_other by assumption. apply Hlift. apply Hchk.
    + rewrite lookup_insert_ne in Hsi0 by assumption.
      apply Hlift. eapply inv_chunks; eauto.
  - intros o0 ln0 Hin. apply elem_of_app in Hin as [Hin|Hin].
    + apply Hold. eapply inv_names; eauto.
    + apply list_elem_of_singleton in Hin. injection Hin as -> ->. assumption.
  - intros nm s [= <- <-]. assumption.
Qed.

Lemma build_lines_inv (c : ti_conf_t) (lns : list line) :
  forall (o : nat) done (st st' : build_state),
    build_inv o done st ->
    build_lines c o lns st = Ok st' ->
    exists n, build_inv n (done ++ records_from c o lns) st'.
Proof.
  induction lns as [|ln rest IH]; intros o done st st' Hinv Hb; simpl in *.
  - injection Hb as <-. exists o. rewrite app_nil_r. assumption.
  - destruct (skipped c o ln).
    + eapply IH; [|eassumption]. eapply build_inv_weaken; [|eassumption]. lia.
    + destruct (index_line o ln st) as [st1|e] eqn:Hidx; [|discriminate].
      destruct (IH (S o) (done ++ [(o, ln)]) st1 st') as (n & Hn); [|assumption|].
      * eapply index_line_inv; [eassumption|lia|assumption].
      * exists n. rewrite <- app_assoc in Hn. assumption.
Qed.

Lemma build_index_inv (c : ti_conf_t) (lns : list line) (ix : ti_index_t) :
  build_index c lns = Ok ix ->
  idx_conf ix = c /\
  exists n, build_inv n (records_from c 0 lns)
              (mk_build_state (names ix) (seqs ix) None).
Proof.
  unfold build_index. destruct (build_lines c 0 lns empty_build_state) as [st|e] eqn:Hb;
    [|discriminate].
  intros [= <-]. split; [reflexivity|].
  destruct (build_lines_inv c lns 0%nat [] _ _ build_inv_empty Hb) as (n & Hinv).
  exists n. simpl in *. destruct Hinv. split; simpl; try assumption. discriminate.
Qed.

(** ** Scanning the merged chunks against a linear scan of the file *)

Lemma scan_none c lns name qs qe todo :
  scan c lns name qs qe todo = None -> emitted c lns name qs qe todo = [].
Proof.
  induction todo as [|p rest IH]; simpl; [reflexivity|].
  destruct (lns !! p) as [ln|]; [|reflexivity].
  destruct (matches c name qs qe ln); [discriminate|assumption].
Qed.

Lemma scan_some c lns name qs qe todo r rest :
  scan c lns name qs qe todo = Some (r, rest) ->
  emitted c lns name qs qe todo = r :: emitted c lns name qs qe rest /\
  (length rest < length todo)%nat.
Proof.
  induction todo as [|p todo' IH]; simpl; [discriminate|].
  destruct (lns !! p) as [ln|]; [|discriminate].
  destruct (matches c name qs qe ln).
  - intros [= <- <-]. split; [reflexivity|lia].
  - intros Hs. destruct (IH Hs) as [He Hl]. split; [assumption|lia].
Qed.

Lemma omap_all_none {A B} (f : A -> option B) (l : list A) :
  (forall x, x ∈ l -> f x = None) -> omap f l = [].
Proof.
  induction l as [|x l IH]; intros Hall; simpl; [reflexivity|].
  rewrite (Hall x) by (apply elem_of_cons; auto).
  apply IH. intros y Hy. apply Hall. apply elem_of_cons. auto.
Qed.

Lemma omap_agree {A B} (f g : A -> option B) (l : list A) :
  (forall x, x ∈ l -> f x = g x) -> omap f l = omap g l.
Proof.
  induction l as [|x l IH]; intros Hall; simpl; [reflexivity|].
  rewrite (Hall x) by (apply elem_of_cons; auto).
  assert (omap f l = omap g l) as E.
  { apply IH. intros y Hy. apply Hall. apply elem_of_cons. auto. }
  destruct (g x); [f_equal|]; exact E.
Qed.

Lemma emitted_sorted c lns name qs qe todo :
  StronglySorted lt todo ->
  emitted c lns name qs qe todo = omap (emit c lns name qs qe) todo.
Proof.
  induction todo as [|p rest IH]; intros Hs; simpl; [reflexivity|].
  apply StronglySorted_cons in Hs as [Hall Hs]. unfold emit at 1.
  destruct (lns !! p) as [ln|] eqn:Hp.
  - rewrite IH by assumption. destruct (matches c name qs qe ln); reflexivity.
  - symmetry. apply omap_all_none. intros q Hq. unfold emit.
    rewrite Forall_forall in Hall. specialize (Hall q Hq).
    apply lookup_ge_None in Hp.
    rewrite (proj2 (lookup_ge_None lns q)); [reflexivity|lia].
Qed.

Lemma linear_scan_oracle c name qs qe (pre lns : list line) :
  linear_scan c name qs qe (length pre) lns
  = omap (oracle_at c (pre ++ lns) name qs qe) (seq (length pre) (length lns)).
Proof.
  revert pre. induction lns as [|ln rest IH]; intros pre; simpl; [reflexivity|].
  unfold oracle_at at 1. rewrite list_lookup_middle by reflexivity.
  specialize (IH (pre ++ [ln])). rewrite length_app in IH. simpl in IH.
  rewrite Nat.add_1_r, <- app_assoc in IH. simpl in IH. rewrite IH.
  destruct (negb (skipped c (length pre) ln) && String.eqb (l_seq ln) name
            && intersects (l_beg ln) (l_end ln) qs qe); reflexivity.
Qed.

(** A strictly increasing list of positions that holds every position of
    a range where [g] answers gives the same answers as the whole range. *)
Lemma sorted_omap_range {A} (g : nat -> option A) (k : nat) :
  forall (o : nat) (todo : list nat),
    StronglySorted lt todo ->
    Forall (fun p => (o <= p)%nat) todo ->
    (forall p, (o <= p)%nat -> is_Some (g p) -> p ∈ todo /\ (p < o + k)%nat) ->
    omap g todo = omap g (seq o k).
Proof.
  induction k as [|k IH]; intros o todo Hs Hge Hsup.
  - simpl. apply omap_all_none. intros p Hp.
    rewrite Forall_forall in Hge. specialize (Hge p Hp).
    destruct (g p) as [a|] eqn:Hg; [|reflexivity].
    destruct (Hsup p Hge) as [_ Hlt]; [rewrite Hg; eauto|lia].
  - simpl. destruct todo as [|h t].
    + assert (g o = None) as Ho.
      { destruct (g o) as [a|] eqn:Hg; [|reflexivity].
        destruct (Hsup o (Nat.le_refl o)) as [Hin _]; [rewrite Hg; eauto|].
        apply elem_of_nil in Hin. contradiction. }
      rewrite Ho. apply (IH (S o) []); [constructor|constructor|].
      intros p Hp Hg. destruct (Hsup p) as [Hin _]; [lia|assumption|].
      apply elem_of_nil in Hin. contradiction.
    + apply StronglySorted_cons in Hs as [Hall Hs].
      apply Forall_cons in Hge as [Hh Hge].
      destruct (decide (h = o)) as [->|Hne].
      * assert (omap g t = omap g (seq (S o) k)) as E.
        { apply (IH (S o) t); [assumption| |].
          - eapply Forall_impl; [apply Hall|]. simpl. intros p Hp. lia.
          - intros p Hp Hg. destruct (Hsup p) as [Hin Hlt]; [lia|assumption|].
            split; [|lia]. apply elem_of_cons in Hin as [->|Hin]; [lia|assumption]. }
        simpl. destruct (g o); [f_equal|]; exact E.
      * assert (g o = None) as Ho.
        { destruct (g o) as [a|] eqn:Hg; [|reflexivity].
          destruct (Hsup o (Nat.le_refl o)) as [Hin _]; [rewrite Hg; eauto|].
          apply elem_of_cons in Hin as [->|Hin]; [congruence|].
          rewrite Forall_forall in Hall. specialize (Hall o Hin). lia. }
        rewrite Ho. apply (IH (S o) (h :: t)).
        -- apply StronglySorted_cons. auto.
        -- constructor; [lia|]. eapply Forall_impl; [apply Hall|]. simpl. intros p Hp. lia.
        -- intros p Hp Hg. destruct (Hsup p) as [Hin Hlt]; [lia|assumption|].
           split; [assumption|lia].
Qed.

(** ** The query engine against the oracle *)

Lemma records_from_spec (c : ti_conf_t) (lns : list line) :
  forall (o o' : nat) (ln : line),
    (o', ln) ∈ records_from c o lns <->
    (o <= o')%nat /\ lns !! (o' - o)%nat = Some ln /\ skipped c o' ln = false.
Proof.
  induction lns as [|l rest IH]; intros o o' ln; simpl.
  - split; [intros H; apply elem_of_nil in H; contradiction|].
    intros (_ & H & _). discriminate.
  - assert (Hrest : (o', ln) ∈ records_from c (S o) rest <->
              (o < o')%nat /\ (l :: rest) !! (o' - o)%nat = Some ln /\ skipped c o' ln = false).
    { rewrite IH. destruct (decide (o < o')%nat) as [Hlt|Hge]; [|lia].
      replace (o' - o)%nat with (S (o' - S o)) by lia. simpl. intuition lia. }
    destruct (decide (o' = o)) as [->|Hne].
    + rewrite Nat.sub_diag. simpl. destruct (skipped c o l) eqn:Hsk.
      * rewrite Hrest. split; [lia|]. intros (_ & [= ->] & Hsk'). congruence.
      * rewrite elem_of_cons, Hrest. split.
        -- intros [[= ->]|?]; [auto|lia].
        -- intros (_ & [= ->] & _). left. reflexivity.
    + destruct (skipped c o l).
      * rewrite Hrest. intuition lia.
      * rewrite elem_of_cons, Hrest. split.
        -- intros [[= ? ?]|?]; [congruence|intuition lia].
        -- intros (? & ? & ?). right. intuition lia.
Qed.

Lemma window_of_mono (x y : Z) : x <= y -> (window_of x <= window_of y)%nat.
Proof.
  intros Hxy. unfold window_of.
  assert (Z.shiftr (Z.max 0 x) window_shift <= Z.shiftr (Z.max 0 y) window_shift).
  { apply shiftr_mono; [unfold window_shift|]; lia. }
  lia.
Qed.

Lemma candidate_covered (si : seq_index) (qs qe : Z) (p : nat) :
  covered p (candidate_chunks si qs qe) <->
  exists b, In b (binsOverlapping qs qe) /\ covered p (chunks_of si b).
Proof.
  unfold candidate_chunks, covered, chunks_of. split.
  - intros (c & Hin & Hp). apply list_elem_of_In, in_flat_map in Hin as (b & Hb & Hc).
    exists b. split; [assumption|]. exists c. split; [|assumption].
    apply list_elem_of_In. assumption.
  - intros (b & Hb & c & Hc & Hp). exists c. split; [|assumption].
    apply list_elem_of_In, in_flat_map. exists b. split; [assumption|].
    apply list_elem_of_In. assumption.
Qed.

Lemma prune_covered (si : seq_index) (qs : Z) (cs : list chunk) (p m : nat) :
  linear si !! window_of qs = Some m -> (m <= p)%nat ->
  covered p cs -> covered p (prune si qs cs).
Proof.
  intros Hm Hle (c & Hin & Hp). unfold prune. rewrite Hm.
  exists c. split; [|assumption]. apply list_elem_of_filter. split; [lia|assumption].
Qed.

Lemma prune_sub (si : seq_index) (qs : Z) (cs : list chunk) (p : nat) :
  covered p (prune si qs cs) -> covered p cs.
Proof.
  unfold prune. intros (c & Hin & Hp). destruct (linear si !! window_of qs).
  - apply list_elem_of_filter in Hin as [_ Hin]. exists c. auto.
  - apply elem_of_nil in Hin. contradiction.
Qed.

(** Every scanned position lies at or after the offset of an indexed
    record, hence after the header lines. *)
Lemma scanned_after_header (c : ti_conf_t) (lns : list line) (n : nat) st
    (name : string) (qs qe : Z) (p : nat) :
  build_inv n (records_from c 0 lns) st ->
  p ∈ flat_map chunk_positions
        (query_chunks (default empty_seq_index (st_seqs st !! name)) qs qe) ->
  (Z.of_nat p <? line_skip c) = false.
Proof.
  intros Hinv Hp. apply positions_covered in Hp. unfold query_chunks in Hp.
  apply merge_chunks_covered, prune_sub, candidate_covered in Hp as (b & _ & ch & Hin & Hch).
  destruct (current_index_facts n _ st name Hinv) as [_ Hchk].
  specialize (Hchk b). rewrite Forall_forall in Hchk.
  destruct (Hchk ch Hin) as [(ln & Hrec) _].
  apply records_from_spec in Hrec as (_ & _ & Hsk).
  unfold skipped in Hsk. apply orb_false_iff in Hsk as [Hsk _].
  apply Z.ltb_ge in Hsk. apply Z.ltb_ge. lia.
Qed.

(** Every indexed record of the sequence that meets the query range is
    among the scanned positions. *)
Lemma matching_record_scanned (c : ti_conf_t) (lns : list line) (n : nat) st
    (qs qe : Z) (p : nat) (ln : line) :
  build_inv n (records_from c 0 lns) st ->
  (p, ln) ∈ records_from c 0 lns ->
  intersects (l_beg ln) (l_end ln) qs qe = true ->
  p ∈ flat_map chunk_positions
        (query_chunks (default empty_seq_index (st_seqs st !! l_seq ln)) qs qe).
Proof.
  intros Hinv Hrec Hint.
  destruct (inv_filed _ _ _ Hinv p ln Hrec) as (si & Hsi & Hcov & Hlin).
  destruct (inv_valid _ _ _ Hinv p ln Hrec) as [Hval Hmax].
  rewrite Hsi. simpl. apply positions_covered. unfold query_chunks.
  apply merge_chunks_covered.
  destruct (Hlin (window_of qs)) as (m & Hm & Hle).
  { apply window_of_mono. unfold intersects in Hint. apply Z.ltb_lt in Hint. lia. }
  eapply prune_covered; [eassumption|assumption|].
  apply candidate_covered. exists (binOf (l_beg ln) (l_end ln)).
  split; [apply bin_is_candidate; assumption|assumption].
Qed.

(** The positions a query scans produce exactly the oracle's records. *)
Lemma scan_exact (c : ti_conf_t) (lns : list line) (ix : ti_index_t)
    (name : string) (qs qe : Z) :
  build_index c lns = Ok ix ->
  emitted c lns name qs qe
    (flat_map chunk_positions
       (query_chunks (default empty_seq_index (seqs ix !! name)) qs qe))
  = linear_scan c name qs qe 0 lns.
Proof.
  intros Hb. apply build_index_inv in Hb as (_ & n & Hinv).
  set (todo := flat_map chunk_positions _).
  assert (Hsorted : StronglySorted lt todo) by apply merge_chunks_sorted.
  rewrite emitted_sorted by assumption.
  change 0%nat with (length (@nil line)).
  rewrite linear_scan_oracle. simpl.
  rewrite (omap_agree _ (oracle_at c lns name qs qe)).
  - apply sorted_omap_range; [assumption|apply Forall_forall; intros; lia|].
    intros p _ Hsome. unfold oracle_at in Hsome.
    destruct (lns !! p) as [ln|] eqn:Hp; [|destruct Hsome; discriminate].
    split; [|apply lookup_lt_is_Some; eauto].
    destruct (negb (skipped c p ln) && String.eqb (l_seq ln) name
              && intersects (l_beg ln) (l_end ln) qs qe) eqn:Hcond;
      [|destruct Hsome; discriminate].
    apply andb_true_iff in Hcond as [Hcond Hint].
    apply andb_true_iff in Hcond as [Hsk Hname].
    apply negb_true_iff in Hsk. apply String.eqb_eq in Hname. subst name.
    apply (matching_record_scanned c lns n _ qs qe p ln Hinv); [|assumption].
    apply records_from_spec. rewrite Nat.sub_0_r. split; [lia|auto].
  - intros p Hp. unfold emit, oracle_at. destruct (lns !! p) as [ln|]; [|reflexivity].
    pose proof (scanned_after_header c lns n _ name qs qe p Hinv Hp) as Hhead.
    unfold matches, skipped. rewrite Hhead. reflexivity.
Qed.

(** ** The generator over a loaded engine *)

Lemma read_loop_set_state (w : world) (g : generator) (s : gen_state) (t : option nat) :
  read_loop w (set_state g s) t = read_loop w g t.
Proof.
  unfold read_loop. simpl. destruct (ti_read w (_tabix (g_self g)) t) as [[r| |] w1]; reflexivity.
Qed.

Lemma ti_read_live (w : world) (p i : nat) (ix : ti_index_t) (lns : list line) (it : ti_iter) :
  engine_ready w p ix lns -> iters w !! i = Some it ->
  ti_read w p (Some i)
  = (read_of (fst (iter_read (idx_conf ix) lns it)),
     mk_world (data_files w) (index_files w) (open_streams w) (engines w)
       (<[i := snd (iter_read (idx_conf ix) lns it)]> (iters w)) (next_ptr w)).
Proof.
  intros (e & He & Hix & Hl) Hit. unfold ti_read. rewrite Hit, He, Hix, Hl.
  destruct (iter_read (idx_conf ix) lns it) as [r it']. reflexivity.
Qed.

Lemma destroy_after_update (w : world) (i : nat) (it : ti_iter) :
  ti_iter_destroy
    (mk_world (data_files w) (index_files w) (open_streams w) (engines w)
       (<[i := it]> (iters w)) (next_ptr w)) (Some i)
  = ti_iter_destroy w (Some i).
Proof. unfold ti_iter_destroy. simpl. rewrite delete_insert_eq. reflexivity. Qed.

(** Draining the loop of a live iterator yields what is left to emit and
    destroys the iterator. *)
Lemma drain_read_loop (ix : ti_index_t) (lns : list line) (p i : nat) :
  forall (f : nat) (w : world) (g : generator) (it : ti_iter),
    _tabix (g_self g) = p ->
    engine_ready w p ix lns -> iters w !! i = Some it ->
    (length (emitted (idx_conf ix) lns (it_seq it) (it_beg it) (it_end it) (it_todo it))
       <= f)%nat ->
    conclude (iterate f) (read_loop w g (Some i))
    = Some (emitted (idx_conf ix) lns (it_seq it) (it_beg it) (it_end it) (it_todo it),
            None, ti_iter_destroy w (Some i)).
Proof.
  induction f as [|f IH]; intros w g it Hp Hready Hit Hlen.
  - unfold read_loop. rewrite Hp, (ti_read_live w p i ix lns it) by assumption.
    unfold iter_read.
    destruct (scan (idx_conf ix) lns (it_seq it) (it_beg it) (it_end it) (it_todo it))
      as [[r rest]|] eqn:Hscan.
    + apply scan_some in Hscan as [He _]. rewrite He in Hlen. simpl in Hlen. lia.
    + apply scan_none in Hscan. rewrite Hscan. cbn [fst snd conclude read_of].
      rewrite destroy_after_update. reflexivity.
  - unfold read_loop. rewrite Hp, (ti_read_live w p i ix lns it) by assumption.
    unfold iter_read.
    destruct (scan (idx_conf ix) lns (it_seq it) (it_beg it) (it_end it) (it_todo it))
      as [[r rest]|] eqn:Hscan.
    + apply scan_some in Hscan as [He _]. rewrite He in *. simpl in Hlen.
      cbn [fst snd conclude iterate gen_next set_state g_state read_of].
      rewrite read_loop_set_state.
      set (it' := mk_iter (it_seq it) (it_beg it) (it_end it) rest).
      set (w1 := mk_world _ _ _ _ _ _).
      rewrite (IH w1 g it').
      * unfold w1. rewrite destroy_after_update. reflexivity.
      * assumption.
      * destruct Hready as (e & He' & Hix & Hl). exists e. auto.
      * unfold w1. simpl. apply lookup_insert_eq.
      * simpl. lia.
    + apply scan_none in Hscan. rewrite Hscan. cbn [fst snd conclude read_of].
      rewrite destroy_after_update. reflexivity.
Qed.

Lemma start_query_ready (w : world) (p : nat) (ix : ti_index_t) (lns : list line)
    (parse : list string -> result region) :
  engine_ready w p ix lns ->
  start_query w p parse
  = match parse (names ix) with
    | Err err => Err err
    | Ok r => engine_query ix r
    end.
Proof. intros (e & He & Hix & _). unfold start_query. rewrite He, Hix. reflexivity. Qed.

Lemma seq_id_lookup (nms : list string) (name : string) (i : nat) :
  seq_id nms name = Some i -> nms !! i = Some name.
Proof.
  revert i. induction nms as [|n rest IH]; intros i; simpl; [discriminate|].
  destruct (String.eqb_spec n name) as [->|Hne].
  - intros [= <-]. reflexivity.
  - destruct (seq_id rest name) as [j|]; [|discriminate].
    intros [= <-]. simpl. apply IH. reflexivity.
Qed.

Lemma seq_id_none (nms : list string) (name : string) :
  seq_id nms name = None <-> name ∉ nms.
Proof.
  induction nms as [|n rest IH]; simpl.
  - split; [intros _ H; apply elem_of_nil in H; contradiction|reflexivity].
  - rewrite not_elem_of_cons. destruct (String.eqb_spec n name) as [->|Hne].
    + split; [discriminate|]. intros [H _]. congruence.
    + destruct (seq_id rest name) as [j|].
      * split; [discriminate|]. intros [_ H]. apply IH in H. discriminate.
      * split; [|reflexivity]. intros _. split; [congruence|]. apply IH. reflexivity.
Qed.

Lemma intersects_empty_range (rs re qs qe : Z) :
  qe <= qs -> intersects rs re qs qe = false.
Proof. intros H. unfold intersects. apply Z.ltb_ge. lia. Qed.

Lemma linear_scan_empty_range (c : ti_conf_t) (name : string) (qs qe : Z)
    (o : nat) (lns : list line) :
  qe <= qs -> linear_scan c name qs qe o lns = [].
Proof.
  intros Hq. revert o. induction lns as [|ln rest IH]; intros o; simpl; [reflexivity|].
  rewrite intersects_empty_range, andb_false_r by assumption. apply IH.
Qed.

(** The oracle keeps a text exactly for the indexed records of the
    sequence whose interval shares a position with the query range. *)
Lemma linear_scan_elem (c : ti_conf_t) (name : string) (qs qe : Z)
    (lns : list line) (r : string) :
  r ∈ linear_scan c name qs qe 0 lns <->
  exists o ln, (o, ln) ∈ records_from c 0 lns /\ l_seq ln = name /\
    (exists x, l_beg ln <= x < l_end ln /\ qs <= x < qe) /\ r = raw ln.
Proof.
  change 0%nat with (length (@nil line)) at 1.
  rewrite linear_scan_oracle. simpl. rewrite list_elem_of_omap. split.
  - intros (p & Hp & Hr). unfold oracle_at in Hr.
    destruct (lns !! p) as [ln|] eqn:Hl; [|discriminate].
    destruct (negb (skipped c p ln) && String.eqb (l_seq ln) name
              && intersects (l_beg ln) (l_end ln) qs qe) eqn:Hcond; [|discriminate].
    injection Hr as <-.
    apply andb_true_iff in Hcond as [Hcond Hint].
    apply andb_true_iff in Hcond as [Hsk Hname].
    apply negb_true_iff in Hsk. apply String.eqb_eq in Hname.
    exists p, ln. split; [|split; [assumption|split; [apply intersects_spec; assumption|reflexivity]]].
    apply records_from_spec. rewrite Nat.sub_0_r. split; [lia|auto].
  - intros (o & ln & Hrec & Hname & Hint & ->).
    apply records_from_spec in Hrec as (_ & Hl & Hsk). rewrite Nat.sub_0_r in Hl.
    exists o. split; [apply elem_of_seq; apply lookup_lt_Some in Hl; lia|].
    unfold oracle_at. rewrite Hl, Hsk.
    apply intersects_spec in Hint. rewrite Hint.
    apply String.eqb_eq in Hname. rewrite Hname. reflexivity.
Qed.

Lemma linear_scan_unknown (c : ti_conf_t) (lns : list line) (ix : ti_index_t)
    (name : string) (qs qe : Z) :
  build_index c lns = Ok ix -> name ∉ names ix ->
  linear_scan c name qs qe 0 lns = [].
Proof.
  intros Hb Hname. apply build_index_inv in Hb as (_ & n & Hinv).
  destruct (linear_scan c name qs qe 0 lns) as [|r rest] eqn:Hscan; [reflexivity|].
  assert (r ∈ linear_scan c name qs qe 0 lns) as Hin by (rewrite Hscan; apply elem_of_cons; auto).
  apply linear_scan_elem in Hin as (o & ln & Hrec & Hseq & _).
  pose proof (inv_names _ _ _ Hinv o ln Hrec) as Hn. simpl in Hn. congruence.
Qed.

(** ** C1: a query yields exactly the overlapping records *)



(** ** The example file of the doctest *)

Lemma example_ready : engine_ready example_world 1 example_index example_lines.
Proof. eexists. repeat split; reflexivity. Qed.

Lemma example_built : build_index (idx_conf example_index) example_lines = Ok example_index.
Proof. reflexivity. Qed.



(** The example queries of the end-to-end scenario, run on the wrapper. *)
Example query_chr1_boundary :
  iterate 2 example_world (Tabix_call example_tabix "chr1" (Some 2090) (Some 3000))
  = Some (["chr1 ENSEMBL exon 2090 3000"], None,
          mk_world (data_files example_world) (index_files example_world)
            (open_streams example_world) (engines example_world) ∅ 4).
Proof. vm_compute. reflexivity. Qed.

Example query_chr2_empty :
  iterate 1 example_world (Tabix_call example_tabix "chr2" (Some 0) (Some 5))
  = Some ([], None,
          mk_world (data_files example_world) (index_files example_world)
            (open_streams example_world) (engines example_world) ∅ 4).
Proof. vm_compute. reflexivity. Qed.

(** ** Queries started from a region parser *)

Lemma scan_records (c : ti_conf_t) (name : string) (qs qe : Z) (lns : list line) :
  forall o : nat,
    linear_scan c name qs qe o lns
    = map (fun r => raw (snd r))
        (List.filter (fun r => String.eqb (l_seq (snd r)) name
                               && intersects (l_beg (snd r)) (l_end (snd r)) qs qe)
                     (records_from c o lns)).
Proof.
  induction lns as [|ln rest IH]; intros o; simpl; [reflexivity|].
  destruct (skipped c o ln); simpl; [apply IH|].
  destruct (String.eqb (l_seq ln) name && intersects (l_beg ln) (l_end ln) qs qe);
    simpl; rewrite IH; reflexivity.
Qed.

Lemma whole_scan (c : ti_conf_t) (lns : list line) (ix : ti_index_t) (name : string) :
  build_index c lns = Ok ix ->
  linear_scan c name 0 sentinel_end 0 lns = sequence_records c name lns.
Proof.
  intros Hb. apply build_index_inv in Hb as (_ & n & Hinv).
  rewrite scan_records. unfold sequence_records. f_equal.
  apply List.filter_ext_in. intros [o ln] Hin. simpl.
  apply list_elem_of_In in Hin.
  destruct (inv_valid _ _ _ Hinv o ln Hin) as [Hval Hmax].
  assert (intersects (l_beg ln) (l_end ln) 0 sentinel_end = true) as ->.
  { unfold intersects, sentinel_end. apply Z.ltb_lt. lia. }
  apply andb_true_r.
Qed.

Lemma parse_region_tid (nms : list string) (s : string) (r : region) :
  parse_region nms s = Ok r -> seq_id nms (region_name s) = Some (r_tid r).
Proof.
  unfold parse_region, region_name, lookup_seq.
  destruct (split_at ":" s) as [[nm rest]|].
  - destruct (seq_id nms nm) as [i|]; [|discriminate].
    destruct (split_at "-" rest) as [[a b]|].
    + destruct (parse_dec a) as [st|]; [|discriminate].
      destruct (parse_dec b) as [en|]; [|discriminate].
      destruct (en <? st); [discriminate|]. intros [= <-]. reflexivity.
    + destruct (parse_dec rest) as [st|]; [|discriminate]. intros [= <-]. reflexivity.
  - destruct (seq_id nms s) as [i|]; [|discriminate]. intros [= <-]. reflexivity.
Qed.

Lemma scan_for_triple (c : ti_conf_t) (lns : list line) (ix : ti_index_t)
    (name : string) (b e : Z) :
  build_index c lns = Ok ix -> idx_conf ix = c ->
  scan_for ix lns (fun nms => region_of_triple nms name b e)
  = linear_scan c name b e 0 lns.
Proof.
  intros Hb Hc. unfold scan_for, region_of_triple, lookup_seq. rewrite Hc.
  destruct (seq_id (names ix) name) as [tid|] eqn:Htid.
  - destruct (Z.ltb_spec e b) as [Hinv|Hle].
    + symmetry. apply linear_scan_empty_range. lia.
    + cbn [r_tid r_beg r_end]. rewrite (seq_id_lookup _ _ _ Htid). reflexivity.
  - symmetry. eapply linear_scan_unknown; [eassumption|].
    apply seq_id_none. assumption.
Qed.

Lemma scan_for_string (c : ti_conf_t) (lns : list line) (ix : ti_index_t)
    (reg : string) (r : region) :
  idx_conf ix = c ->
  parse_region (names ix) reg = Ok r ->
  scan_for ix lns (fun nms => parse_region nms reg)
  = linear_scan c (region_name reg) (r_beg r) (r_end r) 0 lns.
Proof.
  intros Hc Hp. unfold scan_for. rewrite Hp, Hc.
  rewrite (seq_id_lookup _ _ _ (parse_region_tid _ _ _ Hp)). reflexivity.
Qed.


(** A query started on a loaded engine for a region of the dictionary: a
    fresh iterator with exactly the oracle's records left. *)
Lemma query_iterator (w : world) (p : nat) (ix : ti_index_t) (lns : list line)
    (parse : list string -> result region) (r : region) :
  engine_ready w p ix lns ->
  build_index (idx_conf ix) lns = Ok ix ->
  parse (names ix) = Ok r ->
  is_Some (names ix !! r_tid r) ->
  exists (it : ti_iter) (w1 : world),
    alloc_iter w (start_query w p parse) = (Some (next_ptr w), w1) /\
    iters w1 !! next_ptr w = Some it /\ engine_ready w1 p ix lns /\
    emitted (idx_conf ix) lns (it_seq it) (it_beg it) (it_end it) (it_todo it)
    = scan_for ix lns parse.
Proof.
  intros Hready Hb Hp [name Hname].
  rewrite (start_query_ready w p ix lns) by assumption.
  unfold scan_for. rewrite Hp. unfold engine_query. rewrite Hname.
  cbn [alloc_iter]. eexists. eexists. split; [reflexivity|].
  split; [simpl; apply lookup_insert_eq|]. split.
  - destruct Hready as (e & He & Hix & Hl). exists e. auto.
  - cbn [it_seq it_beg it_end it_todo]. apply scan_exact. assumption.
Qed.

Lemma drain_started (w : world) (g : generator) (ix : ti_index_t) (lns : list line)
    (parse : list string -> result region) (r : region) (f : nat) :
  engine_ready w (_tabix (g_self g)) ix lns ->
  build_index (idx_conf ix) lns = Ok ix ->
  parse (names ix) = Ok r ->
  is_Some (names ix !! r_tid r) ->
  (length (scan_for ix lns parse) <= f)%nat ->
  exists w',
    conclude (iterate f)
      (let '(t, w1) := alloc_iter w (start_query w (_tabix (g_self g)) parse) in
       read_loop w1 g t)
    = Some (scan_for ix lns parse, None, w').
Proof.
  intros Hready Hb Hp Hname Hlen.
  destruct (query_iterator w _ ix lns parse r Hready Hb Hp Hname)
    as (it & w1 & Ha & Hit & Hr1 & He); rewrite Ha.
  eexists. rewrite (drain_read_loop ix lns (_tabix (g_self g)) (next_ptr w) f w1 g it);
    [rewrite He; reflexivity|reflexivity|assumption|assumption|].
  rewrite He. assumption.
Qed.

(** The regions both parsers return name a sequence of the dictionary. *)
Lemma parse_region_known (nms : list string) (s : string) (r : region) :
  parse_region nms s = Ok r -> is_Some (nms !! r_tid r).
Proof.
  intros Hp. exists (region_name s). apply seq_id_lookup.
  apply parse_region_tid. assumption.
Qed.

Lemma region_of_triple_ok (nms : list string) (name : string) (b e : Z) :
  name ∈ nms -> b <= e ->
  exists tid, region_of_triple nms name b e = Ok (mk_region tid b e) /\
              nms !! tid = Some name.
Proof.
  intros Hname Hle. unfold region_of_triple, lookup_seq.
  destruct (seq_id nms name) as [tid|] eqn:Htid;
    [|apply seq_id_none in Htid; contradiction].
  exists tid. destruct (Z.ltb_spec e b); [lia|].
  split; [reflexivity|apply seq_id_lookup; assumption].
Qed.

(** ** C2: region strings *)








(** The string query of the doctest: the first record, which ends at
    2090, is returned, since the query starts at 2089. *)
Example query_string_chr1 :
  iterate 3 example_world (Tabix_call example_tabix "chr1:2090-3000" None None)
  = Some (["chr1 ENSEMBL UTR 1737 2090"; "chr1 ENSEMBL exon 2090 3000"], None,
          mk_world (data_files example_world) (index_files example_world)
            (open_streams example_world) (engines example_world) ∅ 4).
Proof. vm_compute. reflexivity. Qed.

Example region_inverted : parse_region ["chr1"; "chr2"] "chr1:100-50" = Err InvalidRange.
Proof. reflexivity. Qed.

(** ** C3: unsorted input *)

Lemma order_inv_empty : order_inv [] empty_build_state.
Proof.
  split; simpl.
  - constructor.
  - discriminate.
  - discriminate.
  - intros r H. apply elem_of_nil in H. contradiction.
  - reflexivity.
Qed.

Lemma index_line_order (o : nat) done (ln : line) (st st' : build_state) :
  order_inv done st ->
  index_line o ln st = Ok st' ->
  order_inv (done ++ [(o, ln)]) st'.
Proof.
  intros [Hs Hlast Hlname Hnames Hfirst] Hidx.
  apply index_line_ok in Hidx as (nms & Hord & _ & ->).
  destruct (check_order_names ln st nms Hlname Hord) as [Hin Hsub].
  assert (Hnew : forall r, r ∈ done -> in_order r (o, ln)).
  { intros r Hr Hseq. simpl in *. unfold check_order in Hord.
    destruct (st_last st) as [[nm s]|] eqn:Hl.
    - destruct (String.eqb_spec nm (l_seq ln)) as [Heq|Hne].
      + destruct (Z.ltb_spec (l_beg ln) s); [discriminate|].
        pose proof (Hlast nm s eq_refl r Hr) as Hle. rewrite Heq in Hle.
        specialize (Hle Hseq). lia.
      + destruct (bool_decide_reflect (l_seq ln ∈ st_names st)) as [Hin'|Hnin];
          [discriminate|].
        exfalso. apply Hnin. rewrite <- Hseq. apply Hnames. assumption.
    - rewrite (Hfirst eq_refl) in Hr. apply elem_of_nil in Hr. contradiction. }
  split; simpl.
  - apply StronglySorted_app. split; [|split; [assumption|repeat constructor]].
    intros x1 x2 H1 H2. apply list_elem_of_singleton in H2. subst x2. auto.
  - intros nm s [= <- <-] r Hr Hseq. apply elem_of_app in Hr as [Hr|Hr].
    + apply Hnew; assumption.
    + apply list_elem_of_singleton in Hr. subst r. simpl. lia.
  - intros nm s [= <- <-]. assumption.
  - intros r Hr. apply elem_of_app in Hr as [Hr|Hr].
    + apply Hsub. apply Hnames. assumption.
    + apply list_elem_of_singleton in Hr. subst r. assumption.
  - discriminate.
Qed.









(** The example of an unsorted file with valid intervals: the error is
    [UnsortedInput]. *)
Example unsorted_example :
  engine_build unsorted_world "u.bed.gz" (mk_conf 0 1 2 3 "#" 0) = Err UnsortedInput.
Proof. reflexivity. Qed.


(** ** C4: the native iterator is destroyed on every exit path *)

Lemma ti_read_delete (w : world) (p i : nat) :
  delete i (iters (snd (ti_read w p (Some i)))) = delete i (iters w).
Proof.
  unfold ti_read. destruct (iters w !! i) as [it|]; [|reflexivity].
  destruct (engines w !! p) as [e|]; [|reflexivity].
  destruct (idx e) as [ix|]; [|reflexivity].
  destruct (data_files w !! t_fn e) as [lns|]; [|reflexivity].
  destruct (iter_read (idx_conf ix) lns it) as [r it']. simpl.
  apply delete_insert_eq.
Qed.

Lemma read_loop_live (w0 w : world) (g : generator) (i : nat) :
  iters w0 !! i = None -> delete i (iters w) = iters w0 ->
  served w0 (read_loop w g (Some i)).
Proof.
  intros Hfree Hdel. unfold read_loop.
  pose proof (ti_read_delete w (_tabix (g_self g)) i) as Hrd.
  destruct (ti_read w (_tabix (g_self g)) (Some i)) as [[r| |] w1]; simpl in *.
  - split; [|discriminate]. unfold gen_inv. simpl. split; [assumption|congruence].
  - split; [|reflexivity]. unfold gen_inv. simpl. congruence.
  - split; [|reflexivity]. unfold gen_inv. simpl. congruence.
Qed.

Lemma read_loop_null (w0 w : world) (g : generator) :
  iters w = iters w0 -> served w0 (read_loop w g None).
Proof.
  intros Heq. unfold read_loop. simpl. split; [|reflexivity].
  unfold gen_inv. simpl. assumption.
Qed.

Lemma alloc_read_loop (w0 : world) (g : generator) (r : result ti_iter) :
  fresh_iters w0 ->
  served w0 (let '(t_iter, w1) := alloc_iter w0 r in read_loop w1 g t_iter).
Proof.
  intros Hfresh. destruct r as [it|e]; simpl.
  - apply read_loop_live; [apply Hfresh; lia|]. simpl.
    rewrite delete_insert_eq. apply delete_id. apply Hfresh. lia.
  - apply read_loop_null. reflexivity.
Qed.

Lemma serve_inv (w0 w : world) (g : generator) (r : request) :
  fresh_iters w0 -> gen_inv w0 w g -> served w0 (serve w g r).
Proof.
  intros Hfresh Hinv. unfold gen_inv in Hinv.
  destruct r as [| |e]; simpl.
  - unfold gen_next. destruct (g_state g) as [|[i|]|] eqn:Hst.
    + subst w. destruct (g_start g) as [s|]; [destruct (c_int s)|];
        destruct (g_end g) as [e|]; try destruct (c_int e);
        try (split; [|reflexivity]; unfold gen_inv; reflexivity).
      * unfold ti_query. apply alloc_read_loop. assumption.
      * unfold ti_querys. apply alloc_read_loop. assumption.
    + destruct Hinv as [Hfree Hdel]. apply read_loop_live; assumption.
    + apply read_loop_null. assumption.
    + split; [|intros _; assumption]. unfold gen_inv. simpl. rewrite Hst. assumption.
  - unfold gen_close. destruct (g_state g) as [|[i|]|] eqn:Hst; simpl.
    + subst w. split; [|reflexivity]. unfold gen_inv. reflexivity.
    + destruct Hinv as [Hfree Hdel]. split; [|reflexivity]. unfold gen_inv. simpl. assumption.
    + split; [|reflexivity]. unfold gen_inv. simpl. assumption.
    + split; [|intros _; assumption]. unfold gen_inv. simpl. rewrite Hst. assumption.
  - unfold gen_throw. destruct (g_state g) as [|[i|]|] eqn:Hst; simpl.
    + subst w. split; [|reflexivity]. unfold gen_inv. reflexivity.
    + destruct Hinv as [Hfree Hdel]. split; [|reflexivity]. unfold gen_inv. simpl. assumption.
    + split; [|reflexivity]. unfold gen_inv. simpl. assumption.
    + split; [|intros _; assumption]. unfold gen_inv. simpl. rewrite Hst. assumption.
Qed.

Lemma serve_all_inv (w0 : world) (rs : list request) :
  fresh_iters w0 ->
  forall (w : world) (g : generator),
    gen_inv w0 w g ->
    gen_inv w0 (fst (serve_all w g rs)) (snd (serve_all w g rs)).
Proof.
  intros Hfresh. induction rs as [|r rest IH]; intros w g Hinv; simpl; [assumption|].
  pose proof (serve_inv w0 w g r Hfresh Hinv) as [Hnext _].
  destruct (serve w g r) as [[w' g'] ans]. simpl in Hnext. apply IH. assumption.
Qed.

(** C4.  Whatever requests a generator of [__call__] has served, a
    request that is not answered with a record (the records are exhausted,
    the caller closes or drops the generator, an exception is raised into
    it or by it) leaves the generator finished and the live native
    iterators exactly those that were live before the call: the iterator
    of the query has been destroyed. *)
Theorem iterator_never_leaked (w : world) (self : Tabix) (region : string)
    (start end_ : option Z) (rs : list request) (r : request) :
  fresh_iters w ->
  let s1 := serve_all w (Tabix_call self region start end_) rs in
  let s2 := serve (fst s1) (snd s1) r in
  is_yield (snd s2) = false ->
  g_state (snd (fst s2)) = GenFinished /\ iters (fst (fst s2)) = iters w.
Proof.
  intros Hfresh s1 s2 Hexit.
  assert (Hinv : gen_inv w (fst s1) (snd s1)).
  { apply serve_all_inv; [assumption|]. unfold gen_inv. reflexivity. }
  destruct (serve_inv w (fst s1) (snd s1) r Hfresh Hinv) as [Hs Hfin].
  fold s2 in Hs, Hfin. specialize (Hfin Hexit). split; [assumption|].
  unfold gen_inv in Hs. rewrite Hfin in Hs. assumption.
Qed.

Lemma iterator_never_leaked_witness :
  g_state (snd (fst (serve
     (fst (serve_all example_world (Tabix_call example_tabix "chr1" None None) [Next]))
     (snd (serve_all example_world (Tabix_call example_tabix "chr1" None None) [Next]))
     Close))) = GenFinished /\
  iters (fst (fst (serve
     (fst (serve_all example_world (Tabix_call example_tabix "chr1" None None) [Next]))
     (snd (serve_all example_world (Tabix_call example_tabix "chr1" None None) [Next]))
     Close))) = iters example_world.
Proof.
  apply (iterator_never_leaked example_world example_tabix "chr1" None None [Next] Close).
  - intros i Hi. reflexivity.
  - reflexivity.
Defined.

(** The three exits on the example: the first record is read, then the
    generator is dropped; the records are read to the end; an exception is
    raised into the suspended generator. *)
Example abandoned_after_first_record :
  let '(w1, g1) := serve_all example_world
                     (Tabix_call example_tabix "chr1" None None) [Next] in
  is_Some (iters w1 !! 3%nat) /\
  iters (fst (gen_close w1 g1)) = ∅.
Proof. vm_compute. split; [eexists; reflexivity|reflexivity]. Qed.

Example raised_while_iterating :
  let '(w1, g1) := serve_all example_world
                     (Tabix_call example_tabix "chr1" None None) [Next] in
  snd (gen_throw w1 g1 (Exception "stop")) = Raised (Exception "stop") /\
  iters (fst (fst (gen_throw w1 g1 (Exception "stop")))) = ∅.
Proof. vm_compute. split; reflexivity. Qed.

(** ** C5: a sequence name that is not in the dictionary *)






(** The comparison of names is exact: a name that differs in case is
    unknown. *)
Example unknown_sequence_case : seq_id (names example_index) "Chr1" = None.
Proof. reflexivity. Qed.

(** ** C6 and C9: the constructor when the index file is absent *)

Lemma endswith_same_length (s a b : string) :
  String.length a = String.length b ->
  endswith s a = true -> endswith s b = true -> a = b.
Proof.
  unfold endswith. intros Hlen Ha Hb. rewrite <- Hlen in Hb.
  apply andb_true_iff in Ha as [_ Ha]. apply andb_true_iff in Hb as [_ Hb].
  apply String.eqb_eq in Ha, Hb. congruence.
Qed.

Lemma endswith_exclusive (s a b : string) :
  String.length a = String.length b -> a <> b ->
  endswith s a = true -> endswith s b = false.
Proof.
  intros Hlen Hne Ha. destruct (endswith s b) eqn:Hb; [|reflexivity].
  exfalso. apply Hne. eapply endswith_same_length; eassumption.
Qed.

Lemma open_engine_ok (w : world) (fname : string) (ix : ti_index_t) (lns : list line) :
  index_files w !! tbi fname = Some ix ->
  data_files w !! fname = Some lns ->
  exists w',
    open_engine w fname = (Return (mk_Tabix (next_ptr w) (idx_conf ix) fname), w') /\
    engine_ready w' (next_ptr w) ix lns /\
    index_files w' = index_files w /\ data_files w' = data_files w /\
    iters w' = iters w.
Proof.
  intros Hix Hl. unfold open_engine, ti_open. rewrite Hl.
  unfold ti_lazy_index_load. cbn [engines]. rewrite lookup_insert_eq.
  cbn [idx t_fn t_fp index_files]. rewrite Hix. cbn [engines].
  rewrite lookup_insert_eq. cbn [idx]. eexists. split; [reflexivity|].
  split; [|repeat split; reflexivity].
  eexists. cbn [engines]. rewrite lookup_insert_eq.
  split; [reflexivity|]. split; [reflexivity|]. simpl. assumption.
Qed.

Lemma tbi_exists_true (w : world) (fname : string) (ix : ti_index_t) :
  index_files w !! tbi fname = Some ix -> tbi_exists w fname = true.
Proof. intros H. unfold tbi_exists. apply bool_decide_eq_true. eauto. Qed.

Lemma build_then_open (d : nat) (w : world) (fname : string)
    (seq_col start_col end_col : Z) (comment : ascii) (skip : Z) :
  c_int seq_col && c_int start_col && c_int end_col && c_int skip = true ->
  let conf := mk_conf 0 seq_col start_col end_col comment skip in
  match engine_build w fname conf with
  | Ok w1 =>
      exists (t : Tabix) (w' : world) (ix : ti_index_t) (lns : list line),
        match build_with (Tabix_new (S d)) w fname seq_col start_col end_col comment skip
        with
        | (Raise e, w2) => (Raise e, w2)
        | (Return _, w2) => open_engine w2 fname
        end = (Return t, w') /\
        _conf t = conf /\ fn t = fname /\ idx_conf ix = conf /\
        data_files w !! fname = Some lns /\ build_index conf lns = Ok ix /\
        index_files w' !! tbi fname = Some ix /\
        engine_ready w' (_tabix t) ix lns
  | Err _ =>
      build_with (Tabix_new (S d)) w fname seq_col start_col end_col comment skip
      = (Raise AssertionError, w)
  end.
Proof.
  intros Hfit conf. unfold build_with, ti_index_build. rewrite Hfit. fold conf.
  destruct (engine_build w fname conf) as [w1|e] eqn:Hb; [|reflexivity].
  unfold engine_build in Hb.
  destruct (data_files w !! fname) as [lns|] eqn:Hl; [|discriminate].
  destruct (build_index conf lns) as [ix|e] eqn:Hix; [|discriminate].
  injection Hb as <-. cbn [Z.eqb].
  assert (Hconf : idx_conf ix = conf).
  { unfold build_index in Hix. destruct (build_lines conf 0 lns empty_build_state);
      [|discriminate]. injection Hix as <-. reflexivity. }
  set (w1 := mk_world _ _ _ _ _ _).
  assert (Hix1 : index_files w1 !! tbi fname = Some ix) by (unfold w1; simpl; apply lookup_insert_eq).
  assert (Hl1 : data_files w1 !! fname = Some lns) by (unfold w1; simpl; assumption).
  cbn [Tabix_new]. unfold init_with at 1. rewrite (tbi_exists_true w1 fname ix Hix1).
  destruct (open_engine_ok w1 fname ix lns Hix1 Hl1) as (w2 & Ho & _ & Hi2 & Hd2 & _).
  rewrite Ho.
  destruct (open_engine_ok w2 fname ix lns) as (w3 & Ho3 & Hr3 & Hi3 & Hd3 & _);
    [congruence|congruence|].
  rewrite Ho3. exists (mk_Tabix (next_ptr w2) (idx_conf ix) fname), w3, ix, lns.
  simpl. repeat split; try assumption; congruence.
Qed.

Lemma init_unknown_type (d : nat) (w : world) (fname : string) :
  tbi_exists w fname = false ->
  endswith fname ".bed.gz" = false ->
  endswith fname ".gff.gz" = false ->
  endswith fname ".gtf.gz" = false ->
  endswith fname ".vcf.gz" = false ->
  Tabix_new (S d) w fname
  = (Raise (Exception (String.append fname ".tbi not found and filetype not known")), w).
Proof.
  intros Htbi Hbed Hgff Hgtf Hvcf. cbn [Tabix_new]. unfold init_with.
  rewrite Htbi, Hbed, Hgff, Hgtf, Hvcf. reflexivity.
Qed.

(** C9.  With no companion index, the constructor builds by extension:
    [.bed.gz] with columns (1, 2, 3), [.gff.gz] and [.gtf.gz] with
    (1, 4, 5), [.vcf.gz] with (1, 2, 0), each with comment character [#]
    and no header line skipped, and then opens the index just built; for
    any other extension it raises an exception and the world is unchanged:
    nothing is built and no engine is opened. *)
Theorem constructor_dispatches_on_extension (d : nat) (w : world) (fname : string) :
  tbi_exists w fname = false ->
  (endswith fname ".bed.gz" = true ->
   built_and_opened (S (S d)) w fname (mk_conf 0 1 2 3 "#" 0)) /\
  (endswith fname ".gff.gz" = true \/ endswith fname ".gtf.gz" = true ->
   built_and_opened (S (S d)) w fname (mk_conf 0 1 4 5 "#" 0)) /\
  (endswith fname ".vcf.gz" = true ->
   built_and_opened (S (S d)) w fname (mk_conf 0 1 2 0 "#" 0)) /\
  (endswith fname ".bed.gz" = false -> endswith fname ".gff.gz" = false ->
   endswith fname ".gtf.gz" = false -> endswith fname ".vcf.gz" = false ->
   Tabix_new (S d) w fname
   = (Raise (Exception (String.append fname ".tbi not found and filetype not known")), w)).
Proof.
  intros Htbi.
  assert (Hrun : forall sc' bc' ec',
    c_int sc' && c_int bc' && c_int ec' && c_int 0 = true ->
    init_with (build_with (Tabix_new (S d))) w fname
    = match build_with (Tabix_new (S d)) w fname sc' bc' ec' "#" 0 with
      | (Raise e, w2) => (Raise e, w2)
      | (Return _, w2) => open_engine w2 fname
      end ->
    built_and_opened (S (S d)) w fname (mk_conf 0 sc' bc' ec' "#" 0)).
  { intros sc' bc' ec' Hfit Hinit. unfold built_and_opened.
    pose proof (build_then_open d w fname sc' bc' ec' "#" 0 Hfit) as Hb. cbv zeta in Hb.
    change (Tabix_new (S (S d)) w fname)
      with (init_with (build_with (Tabix_new (S d))) w fname).
    rewrite Hinit.
    destruct (engine_build w fname (mk_conf 0 sc' bc' ec' "#" 0)) as [w1|e].
    - exact Hb.
    - rewrite Hb. reflexivity. }
  split; [|split; [|split]].
  - intros Hbed. apply Hrun; [reflexivity|].
    unfold init_with. rewrite Htbi, Hbed. reflexivity.
  - intros Hg. apply Hrun; [reflexivity|]. unfold init_with. rewrite Htbi.
    assert (endswith fname ".bed.gz" = false) as ->.
    { destruct Hg as [Hg|Hg]; eapply endswith_exclusive; try exact Hg;
        try reflexivity; discriminate. }
    assert (endswith fname ".gff.gz" || endswith fname ".gtf.gz" = true) as ->.
    { apply orb_true_iff. assumption. }
    reflexivity.
  - intros Hvcf. apply Hrun; [reflexivity|]. unfold init_with. rewrite Htbi.
    rewrite (endswith_exclusive fname ".vcf.gz" ".bed.gz") by
      (try reflexivity; try discriminate; assumption).
    rewrite (endswith_exclusive fname ".vcf.gz" ".gff.gz") by
      (try reflexivity; try discriminate; assumption).
    rewrite (endswith_exclusive fname ".vcf.gz" ".gtf.gz") by
      (try reflexivity; try discriminate; assumption).
    rewrite Hvcf. reflexivity.
  - apply init_unknown_type. assumption.
Qed.

Lemma constructor_dispatches_on_extension_witness :
  built_and_opened 2 fresh_world example_fn (mk_conf 0 1 4 5 "#" 0) /\
  Tabix_new 1 fresh_world "example.txt"
  = (Raise (Exception "example.txt.tbi not found and filetype not known"), fresh_world).
Proof.
  split.
  - apply (proj1 (proj2 (constructor_dispatches_on_extension 0 fresh_world example_fn
                           eq_refl))).
    right. reflexivity.
  - apply (proj2 (proj2 (proj2 (constructor_dispatches_on_extension 0 fresh_world
                                  "example.txt" eq_refl)))); reflexivity.
Defined.

(** C6, as the code has it.  With no companion index and a file name that
    ends in none of [.bed.gz], [.gff.gz], [.gtf.gz], [.vcf.gz], the
    constructor fails with an exception that reports the missing index, and
    the world is unchanged: it builds no index and opens no engine. *)
Theorem constructor_fails_when_type_unknown (d : nat) (w : world) (fname : string) :
  tbi_exists w fname = false ->
  endswith fname ".bed.gz" = false ->
  endswith fname ".gff.gz" = false ->
  endswith fname ".gtf.gz" = false ->
  endswith fname ".vcf.gz" = false ->
  Tabix_new (S d) w fname
  = (Raise (Exception (String.append fname ".tbi not found and filetype not known")), w).
Proof. apply init_unknown_type. Qed.

Lemma constructor_fails_when_type_unknown_witness :
  Tabix_new 1 fresh_world "notes.txt"
  = (Raise (Exception "notes.txt.tbi not found and filetype not known"), fresh_world).
Proof.
  apply (constructor_fails_when_type_unknown 0 fresh_world "notes.txt");
    reflexivity.
Defined.

(** On the example file without its index, the constructor does not
    fail: it builds the index itself and returns an instance. *)
Lemma constructor_builds_index :
  tbi_exists fresh_world example_fn = false /\
  exists (t : Tabix) (w' : world),
    Tabix_new 2 fresh_world example_fn = (Return t, w') /\
    index_files w' !! tbi example_fn = Some example_index.
Proof.
  split; [reflexivity|]. eexists. eexists. split; [vm_compute; reflexivity|].
  vm_compute. reflexivity.
Qed.

(** ** C7: close *)

Lemma ti_close_closed (w : world) (p : nat) :
  engines (ti_close w p) !! p = None.
Proof.
  unfold ti_close. destruct (engines w !! p) as [e|] eqn:He; [|assumption].
  simpl. apply lookup_delete_eq.
Qed.

(** C7.  For an open engine, [close] releases the handle and its stream,
    and a second [close] changes nothing further. *)
Theorem close_idempotent (w : world) (self : Tabix) (e : tabix_t) :
  engines w !! _tabix self = Some e ->
  close (close w self) self = close w self /\
  engines (close w self) !! _tabix self = None /\
  t_fp e ∉ open_streams (close w self).
Proof.
  intros He. unfold close. split; [|split].
  - unfold ti_close at 1. rewrite ti_close_closed. reflexivity.
  - apply ti_close_closed.
  - unfold ti_close. rewrite He. simpl. rewrite elem_of_difference.
    intros [_ Hnot]. apply Hnot. apply elem_of_singleton. reflexivity.
Qed.

Lemma close_idempotent_witness :
  close (close example_world example_tabix) example_tabix
  = close example_world example_tabix /\
  engines (close example_world example_tabix) !! 1%nat = None /\
  2%nat ∉ open_streams (close example_world example_tabix).
Proof.
  apply (close_idempotent example_world example_tabix
           (mk_tabix example_fn 2 (Some example_index))).
  reflexivity.
Defined.

(** ** C8: the sequence names *)

Lemma declared_snoc (l : list string) (x : string) :
  declared (l ++ [x]) = declare (declared l) x.
Proof. unfold declared. rewrite fold_left_app. reflexivity. Qed.

Lemma index_line_names (o : nat) done (ln : line) (st st' : build_state) :
  order_inv done st ->
  st_names st = declared (record_names done) ->
  index_line o ln st = Ok st' ->
  st_names st' = declared (record_names (done ++ [(o, ln)])).
Proof.
  intros Hinv Hnames Hidx.
  apply index_line_ok in Hidx as (nms & Hord & _ & ->). simpl.
  unfold record_names. rewrite map_app. simpl. rewrite declared_snoc.
  fold (record_names done). rewrite <- Hnames. unfold declare, check_order in *.
  destruct (st_last st) as [[nm s]|] eqn:Hl.
  - destruct (String.eqb_spec nm (l_seq ln)) as [Heq|Hne].
    + destruct (l_beg ln <? s); [discriminate|]. injection Hord as <-.
      rewrite bool_decide_eq_true_2; [reflexivity|].
      rewrite <- Heq. eapply ord_last_name; eassumption.
    + destruct (bool_decide (l_seq ln ∈ st_names st)); [discriminate|].
      injection Hord as <-. reflexivity.
  - injection Hord as <-.
    rewrite bool_decide_eq_false_2; [reflexivity|].
    rewrite Hnames, (ord_first _ _ Hinv Hl). simpl. apply not_elem_of_nil.
Qed.

Lemma build_lines_names (c : ti_conf_t) (lns : list line) :
  forall (o : nat) done (st st' : build_state),
    order_inv done st ->
    st_names st = declared (record_names done) ->
    build_lines c o lns st = Ok st' ->
    st_names st' = declared (record_names (done ++ records_from c o lns)).
Proof.
  induction lns as [|ln rest IH]; intros o done st st' Hinv Hnames Hb; simpl in *.
  - injection Hb as <-. rewrite app_nil_r. assumption.
  - destruct (skipped c o ln).
    + eapply IH; eassumption.
    + destruct (index_line o ln st) as [st1|e] eqn:Hidx; [|discriminate].
      pose proof (IH (S o) (done ++ [(o, ln)]) st1 st'
                    (index_line_order _ _ _ _ _ Hinv Hidx)
                    (index_line_names _ _ _ _ _ Hinv Hnames Hidx) Hb) as H.
      rewrite <- app_assoc in H. assumption.
Qed.

Lemma build_index_names (c : ti_conf_t) (lns : list line) (ix : ti_index_t) :
  build_index c lns = Ok ix ->
  names ix = declared (record_names (records_from c 0 lns)).
Proof.
  unfold build_index.
  destruct (build_lines c 0 lns empty_build_state) as [st|e] eqn:Hb; [|discriminate].
  intros [= <-]. simpl.
  apply (build_lines_names c lns 0%nat [] _ _ order_inv_empty eq_refl Hb).
Qed.

Lemma map_nth_seq (l pre : list string) :
  map (fun i => nth i (pre ++ l) EmptyString) (seq (length pre) (length l)) = l.
Proof.
  revert pre. induction l as [|x l IH]; intros pre; simpl; [reflexivity|].
  rewrite app_nth2, Nat.sub_diag by lia. simpl. f_equal.
  specialize (IH (pre ++ [x])). rewrite length_app, <- app_assoc in IH.
  simpl in IH. rewrite Nat.add_1_r in IH. assumption.
Qed.

Lemma decode_all_ascii (l : list string) :
  decode_all l = if forallb all_ascii l then Return l else Raise UnicodeDecodeError.
Proof.
  induction l as [|s rest IH]; simpl; [reflexivity|].
  unfold decode. destruct (all_ascii s); simpl; [|reflexivity].
  rewrite IH. destruct (forallb all_ascii rest); reflexivity.
Qed.

(** C8.  On an engine whose loaded index was built from its data file,
    [sequences] returns the dictionary, decoded: the sequence names of the
    indexed records in the order in which they first appear in the file,
    when all of them are ASCII; a name with a byte above 127 makes it raise
    [UnicodeDecodeError]. *)
Theorem sequences_in_declaration_order (w : world) (self : Tabix)
    (ix : ti_index_t) (lns : list line) :
  engine_ready w (_tabix self) ix lns ->
  build_index (idx_conf ix) lns = Ok ix ->
  names ix = declared (record_names (records_from (idx_conf ix) 0 lns)) /\
  sequences w self
  = if forallb all_ascii (declared (record_names (records_from (idx_conf ix) 0 lns)))
    then Return (declared (record_names (records_from (idx_conf ix) 0 lns)))
    else Raise UnicodeDecodeError.
Proof.
  intros (e & He & Hix & _) Hb. split; [apply build_index_names; assumption|].
  unfold sequences, ti_seqname. rewrite He, Hix.
  pose proof (map_nth_seq (names ix) []) as Hmap. simpl in Hmap. rewrite Hmap.
  rewrite (build_index_names _ _ _ Hb). apply decode_all_ascii.
Qed.

Lemma sequences_in_declaration_order_witness :
  names example_index = ["chr1"; "chr2"] /\
  sequences example_world example_tabix = Return ["chr1"; "chr2"].
Proof.
  apply (sequences_in_declaration_order example_world example_tabix
           example_index example_lines).
  - eexists. repeat split; reflexivity.
  - reflexivity.
Defined.

(** C8, the input the claim leaves out.  A data file whose sequence name
    has the byte 233: the constructor builds and opens its index, the
    dictionary holds the name, and [sequences] raises
    [UnicodeDecodeError] instead of returning it. *)
Lemma sequences_name_not_ascii :
  exists (t : Tabix) (w' : world) (ix : ti_index_t),
    Tabix_new 2 latin_world "l.bed.gz" = (Return t, w') /\
    engine_ready w' (_tabix t) ix latin_lines /\
    names ix = [latin_name] /\
    sequences w' t = Raise UnicodeDecodeError.
Proof.
  eexists. eexists. eexists. split; [vm_compute; reflexivity|].
  split; [eexists; repeat split; vm_compute; reflexivity|].
  split; vm_compute; reflexivity.
Qed.

(** ** C10: [end] without [start] *)

(** C10, as the code has it.  A call with [start] omitted and [end] given
    returns a generator without running any of the body; the first request
    for a record fails with the assertion error, before any native query is
    issued and before any iterator is created: the world is unchanged and
    the generator is finished. *)
Theorem end_without_start_asserts (w : world) (self : Tabix) (region : string) (e : Z) :
  g_state (Tabix_call self region None (Some e)) = GenCreated /\
  gen_next w (Tabix_call self region None (Some e))
  = (w, set_state (Tabix_call self region None (Some e)) GenFinished,
     Raised AssertionError) /\
  forall fuel, (0 < fuel)%nat ->
    iterate fuel w (Tabix_call self region None (Some e))
    = Some ([], Some AssertionError, w).
Proof.
  split; [reflexivity|]. split; [reflexivity|].
  intros fuel Hfuel. destruct fuel as [|f]; [lia|]. reflexivity.
Qed.

Lemma end_without_start_asserts_witness :
  g_state (Tabix_call example_tabix "chr1" None (Some 5)) = GenCreated /\
  gen_next example_world (Tabix_call example_tabix "chr1" None (Some 5))
  = (example_world, set_state (Tabix_call example_tabix "chr1" None (Some 5)) GenFinished,
     Raised AssertionError) /\
  iterate 1 example_world (Tabix_call example_tabix "chr1" None (Some 5))
  = Some ([], Some AssertionError, example_world).
Proof.
  destruct (end_without_start_asserts example_world example_tabix "chr1" 5)
    as (H1 & H2 & H3).
  split; [exact H1|]. split; [exact H2|]. apply H3. lia.
Defined.

(** The call itself does not fail: it returns a generator that has not
    run, and closing that generator raises nothing. *)
Lemma call_returns_generator :
  g_state (Tabix_call example_tabix "chr1" None (Some 5)) = GenCreated /\
  gen_close example_world (Tabix_call example_tabix "chr1" None (Some 5))
  = (example_world, set_state (Tabix_call example_tabix "chr1" None (Some 5)) GenFinished).
Proof. split; reflexivity. Qed.

(** * Further properties of the wrapper *)

(** ** The constructor and [build] *)

Lemma open_engine_return (w w' : world) (fname : string) (t : Tabix) :
  open_engine w fname = (Return t, w') ->
  exists (ix : ti_index_t) (lns : list line),
    engine_ready w' (_tabix t) ix lns /\ _conf t = idx_conf ix /\ fn t = fname /\
    index_files w' !! tbi fname = Some ix /\
    index_files w' = index_files w /\ data_files w' = data_files w.
Proof.
  unfold open_engine, ti_open.
  destruct (data_files w !! fname) as [lns|] eqn:Hl.
  - unfold ti_lazy_index_load. cbn [engines]. rewrite lookup_insert_eq.
    cbn [idx t_fn t_fp index_files].
    destruct (index_files w !! tbi fname) as [ix|] eqn:Hix.
    + cbn [engines]. rewrite lookup_insert_eq. cbn [idx].
      intros [= <- <-]. exists ix, lns. split.
      * unfold engine_ready. cbn [_tabix engines data_files]. eexists.
        split; [apply lookup_insert_eq|]. split; [reflexivity|exact Hl].
      * cbn [_conf fn index_files data_files ti_get_conf].
        repeat split; try reflexivity; assumption.
    + cbn [engines]. rewrite lookup_insert_eq. cbn [idx]. discriminate.
  - simpl. discriminate.
Qed.

Lemma after_build_return (built : outcome Tabix * world) (w' : world)
    (fname : string) (t : Tabix) :
  match built with
  | (Raise e, w1) => (Raise e, w1)
  | (Return _, w1) => open_engine w1 fname
  end = (Return t, w') ->
  exists (ix : ti_index_t) (lns : list line),
    engine_ready w' (_tabix t) ix lns /\ _conf t = idx_conf ix /\ fn t = fname /\
    index_files w' !! tbi fname = Some ix.
Proof.
  destruct built as [[t0|e] w1]; [|discriminate].
  intros Ho. apply open_engine_return in Ho as (ix & lns & H1 & H2 & H3 & H4 & _).
  exists ix, lns. auto.
Qed.

(** Every instance the constructor returns, on whichever branch, is open
    on the file it was given, with the index file of that path loaded and
    [_conf] the configuration stored in it. *)
Theorem constructed_instance_ready (depth : nat) (w w' : world) (fname : string)
    (t : Tabix) :
  Tabix_new depth w fname = (Return t, w') ->
  exists (ix : ti_index_t) (lns : list line),
    engine_ready w' (_tabix t) ix lns /\ _conf t = idx_conf ix /\ fn t = fname /\
    index_files w' !! tbi fname = Some ix.
Proof.
  destruct depth as [|d]; simpl; [discriminate|]. unfold init_with.
  destruct (tbi_exists w fname).
  - intros Ho. apply open_engine_return in Ho as (ix & lns & H1 & H2 & H3 & H4 & _).
    exists ix, lns. auto.
  - cbv zeta. apply after_build_return.
Qed.

Lemma constructed_instance_ready_witness :
  exists (ix : ti_index_t) (lns : list line),
    engine_ready built_world (_tabix built_tabix) ix lns /\
    _conf built_tabix = idx_conf ix /\ fn built_tabix = example_fn /\
    index_files built_world !! tbi example_fn = Some ix.
Proof.
  apply (constructed_instance_ready 2 fresh_world built_world example_fn built_tabix).
  vm_compute. reflexivity.
Defined.

Lemma open_existing_index (d : nat) (w : world) (fname : string)
    (ix : ti_index_t) (lns : list line) :
  index_files w !! tbi fname = Some ix ->
  data_files w !! fname = Some lns ->
  exists w',
    Tabix_new (S d) w fname = (Return (mk_Tabix (next_ptr w) (idx_conf ix) fname), w') /\
    index_files w' = index_files w /\ data_files w' = data_files w /\
    engine_ready w' (next_ptr w) ix lns.
Proof.
  intros Hix Hl. cbn [Tabix_new]. unfold init_with.
  rewrite (tbi_exists_true w fname ix Hix).
  destruct (open_engine_ok w fname ix lns Hix Hl) as (w' & Ho & Hr & Hi & Hd & _).
  exists w'. auto.
Qed.

(** When the index file exists the constructor never builds: whatever the
    extension of the path, the index files and data files are left as they
    were, and the instance carries the configuration of the existing
    index. *)
Theorem constructor_keeps_existing_index (d : nat) (w : world) (fname : string)
    (ix : ti_index_t) (lns : list line) :
  index_files w !! tbi fname = Some ix ->
  data_files w !! fname = Some lns ->
  exists w',
    Tabix_new (S d) w fname = (Return (mk_Tabix (next_ptr w) (idx_conf ix) fname), w') /\
    index_files w' = index_files w /\ data_files w' = data_files w /\
    engine_ready w' (next_ptr w) ix lns.
Proof.
  apply open_existing_index.
Qed.

Lemma constructor_keeps_existing_index_witness :
  exists w',
    Tabix_new 1 example_world example_fn
    = (Return (mk_Tabix 3 example_conf example_fn), w') /\
    index_files w' = index_files example_world /\
    data_files w' = data_files example_world /\
    engine_ready w' 3 example_index example_lines.
Proof.
  apply (constructor_keeps_existing_index 0 example_world example_fn
           example_index example_lines); reflexivity.
Defined.

Lemma build_with_depth (d : nat) (w : world) (fname : string)
    (seq_col start_col end_col : Z) (comment : ascii) (skip : Z) :
  build_with (Tabix_new (S d)) w fname seq_col start_col end_col comment skip
  = build_with (Tabix_new 1) w fname seq_col start_col end_col comment skip.
Proof.
  unfold build_with, ti_index_build.
  destruct (c_int seq_col && c_int start_col && c_int end_col && c_int skip);
    [|reflexivity].
  destruct (engine_build w fname (mk_conf 0 seq_col start_col end_col comment skip))
    as [w1|e] eqn:Hb; [|reflexivity].
  cbn [Z.eqb]. unfold engine_build in Hb.
  destruct (data_files w !! fname) as [lns|]; [|discriminate].
  destruct (build_index _ lns) as [ix|e]; [|discriminate].
  injection Hb as <-. cbn [Tabix_new]. unfold init_with.
  rewrite (tbi_exists_true _ fname ix) by (simpl; apply lookup_insert_eq).
  reflexivity.
Qed.

Lemma open_engine_not_recursion (w : world) (fname : string) :
  fst (open_engine w fname) <> Raise RecursionError.
Proof.
  unfold open_engine. destruct (ti_open w fname) as [[p|] w1];
    destruct (ti_lazy_index_load w1 _) as [rc w2]; simpl; [|discriminate].
  destruct (engines w2 !! p) as [e|]; [|discriminate].
  destruct (idx e); discriminate.
Qed.

Lemma after_build_not_recursion (built : outcome Tabix * world) (fname : string) :
  fst built <> Raise RecursionError ->
  fst (match built with
       | (Raise e, w1) => (Raise e, w1)
       | (Return _, w1) => open_engine w1 fname
       end) <> Raise RecursionError.
Proof.
  destruct built as [[t0|e] w1]; simpl; [|auto].
  intros _. apply open_engine_not_recursion.
Qed.

Lemma build_not_recursion (w : world) (fname : string)
    (seq_col start_col end_col : Z) (comment : ascii) (skip : Z) :
  fst (build_with (Tabix_new 1) w fname seq_col start_col end_col comment skip)
  <> Raise RecursionError.
Proof.
  unfold build_with, ti_index_build.
  destruct (c_int seq_col && c_int start_col && c_int end_col && c_int skip);
    [|discriminate].
  destruct (engine_build w fname (mk_conf 0 seq_col start_col end_col comment skip))
    as [w1|e] eqn:Hb; [|discriminate].
  cbn [Z.eqb]. unfold engine_build in Hb.
  destruct (data_files w !! fname) as [lns|]; [|discriminate].
  destruct (build_index _ lns) as [ix|e]; [|discriminate].
  injection Hb as <-. cbn [Tabix_new]. unfold init_with.
  rewrite (tbi_exists_true _ fname ix) by (simpl; apply lookup_insert_eq).
  apply open_engine_not_recursion.
Qed.

(** [__init__] and [build] call each other, and the nesting ends: the
    constructor called by [build] finds the index [build] has just written.
    Two nested constructor calls are enough, a larger bound changes
    nothing, and the bound is never what ends the constructor. *)
Theorem constructor_nesting_bounded (d : nat) (w : world) (fname : string) :
  Tabix_new (S (S d)) w fname = Tabix_new 2 w fname /\
  fst (Tabix_new (S (S d)) w fname) <> Raise RecursionError.
Proof.
  assert (Heq : Tabix_new (S (S d)) w fname = Tabix_new 2 w fname).
  { cbn [Tabix_new]. unfold init_with. rewrite !(build_with_depth d). reflexivity. }
  split; [assumption|]. rewrite Heq.
  change (Tabix_new 2 w fname) with (init_with (build_with (Tabix_new 1)) w fname).
  unfold init_with.
  destruct (tbi_exists w fname); [apply open_engine_not_recursion|].
  cbv zeta. apply after_build_not_recursion.
  destruct (endswith fname ".bed.gz"); [apply build_not_recursion|].
  destruct (endswith fname ".gff.gz" || endswith fname ".gtf.gz");
    [apply build_not_recursion|].
  destruct (endswith fname ".vcf.gz"); [apply build_not_recursion|].
  discriminate.
Qed.

(** [Tabix.build], whatever index was there before.  With columns and
    [line_skip] that fit [int32_t]: when the native build succeeds, the
    index file of the path holds the index just built with the columns
    given (the preset always 0) and the instance returned is open on it
    with that configuration; when it fails, for whatever reason, the
    assertion fails and the world is unchanged.  With a column or
    [line_skip] that does not fit, the configuration cannot be filled:
    [OverflowError], the native build is not called and the world is
    unchanged. *)
Theorem build_replaces_or_asserts (d : nat) (w : world) (fname : string)
    (seq_col start_col end_col : Z) (comment : ascii) (skip : Z) :
  if c_int seq_col && c_int start_col && c_int end_col && c_int skip then
    match engine_build w fname (mk_conf 0 seq_col start_col end_col comment skip) with
    | Ok _ =>
        exists (t : Tabix) (w' : world) (ix : ti_index_t) (lns : list line),
          Tabix_build (S d) w fname seq_col start_col end_col comment skip
          = (Return t, w') /\
          _conf t = mk_conf 0 seq_col start_col end_col comment skip /\
          fn t = fname /\
          data_files w !! fname = Some lns /\
          build_index (mk_conf 0 seq_col start_col end_col comment skip) lns = Ok ix /\
          index_files w' !! tbi fname = Some ix /\
          engine_ready w' (_tabix t) ix lns
    | Err _ =>
        Tabix_build (S d) w fname seq_col start_col end_col comment skip
        = (Raise AssertionError, w)
    end
  else
    Tabix_build (S d) w fname seq_col start_col end_col comment skip
    = (Raise OverflowError, w).
Proof.
  unfold Tabix_build, build_with, ti_index_build.
  destruct (c_int seq_col && c_int start_col && c_int end_col && c_int skip);
    [|reflexivity].
  set (conf := mk_conf 0 seq_col start_col end_col comment skip).
  destruct (engine_build w fname conf) as [w1|e] eqn:Hb; [|reflexivity].
  unfold engine_build in Hb.
  destruct (data_files w !! fname) as [lns|] eqn:Hl; [|discriminate].
  destruct (build_index conf lns) as [ix|e] eqn:Hix; [|discriminate].
  injection Hb as <-. cbn [Z.eqb].
  assert (Hconf : idx_conf ix = conf).
  { unfold build_index in Hix. destruct (build_lines conf 0 lns empty_build_state);
      [|discriminate]. injection Hix as <-. reflexivity. }
  set (w1 := mk_world _ _ _ _ _ _).
  assert (Hix1 : index_files w1 !! tbi fname = Some ix)
    by (unfold w1; simpl; apply lookup_insert_eq).
  destruct (open_existing_index d w1 fname ix lns Hix1 Hl)
    as (w' & Hnew & Hi & _ & Hr).
  rewrite Hnew. eexists. exists w', ix, lns. split; [reflexivity|].
  cbn [_conf fn _tabix]. repeat split; try assumption; congruence.
Qed.

Example build_column_outside_int32 :
  Tabix_build 1 example_world example_fn (2 ^ 31) 2 3 "#" 0
  = (Raise OverflowError, example_world).
Proof. vm_compute. reflexivity. Qed.

Example build_replaces_index :
  exists (t : Tabix) (w' : world) (ix : ti_index_t),
    Tabix_build 1 example_world example_fn 1 2 3 "#" 0 = (Return t, w') /\
    _conf t = mk_conf 0 1 2 3 "#" 0 /\
    index_files w' !! tbi example_fn = Some ix /\
    idx_conf ix = mk_conf 0 1 2 3 "#" 0 /\
    idx_conf example_index = mk_conf 0 1 4 5 "#" 0.
Proof.
  eexists. eexists. eexists. split; [vm_compute; reflexivity|].
  repeat split; vm_compute; reflexivity.
Qed.

(** ** [__repr__] *)

Lemma append_length (a b : string) :
  String.length (String.append a b) = (String.length a + String.length b)%nat.
Proof. induction a as [|c a IH]; simpl; [reflexivity|]. rewrite IH. reflexivity. Qed.

Lemma append_cancel_r (a b s : string) :
  String.append a s = String.append b s -> a = b.
Proof.
  revert b. induction a as [|c a IH]; intros [|c' b] H; simpl in H.
  - reflexivity.
  - exfalso. apply (f_equal String.length) in H.
    rewrite !append_length in H. simpl in H. rewrite ?append_length in H. lia.
  - exfalso. apply (f_equal String.length) in H.
    rewrite !append_length in H. simpl in H. rewrite ?append_length in H. lia.
  - injection H as -> H. f_equal. apply IH. assumption.
Qed.

(** The text of an instance names the path its constructor was given,
    on whichever branch it was constructed, and instances on different
    paths have different texts. *)
Theorem repr_shows_path (depth : nat) (w w' : world) (fname : string) (t : Tabix) :
  Tabix_new depth w fname = (Return t, w') ->
  Tabix_repr t = String.append "Tabix('" (String.append fname "')") /\
  forall t2 : Tabix, Tabix_repr t2 = Tabix_repr t -> fn t2 = fname.
Proof.
  intros Hnew.
  assert (Hfn : fn t = fname).
  { destruct depth as [|d]; simpl in Hnew; [discriminate|]. unfold init_with in Hnew.
    destruct (tbi_exists w fname).
    - apply open_engine_return in Hnew as (ix & lns & _ & _ & H3 & _). assumption.
    - cbv zeta in Hnew. apply after_build_return in Hnew as (ix & lns & _ & _ & H3 & _).
      assumption. }
  unfold Tabix_repr. rewrite Hfn. split; [reflexivity|].
  intros t2 Heq. simpl in Heq. injection Heq as Heq.
  change (String.append (fn t2) "')" = String.append fname "')") in Heq.
  apply append_cancel_r in Heq. assumption.
Qed.

Lemma repr_shows_path_witness :
  Tabix_repr built_tabix = "Tabix('example.gtf.gz')" /\
  forall t2 : Tabix, Tabix_repr t2 = Tabix_repr built_tabix -> fn t2 = example_fn.
Proof.
  apply (repr_shows_path 2 fresh_world built_world example_fn built_tabix).
  vm_compute. reflexivity.
Defined.

(** ** What a query leaves alone *)

Lemma same_files_refl (w : world) : same_files w w.
Proof. unfold same_files. auto. Qed.

Lemma same_files_trans (w1 w2 w3 : world) :
  same_files w1 w2 -> same_files w2 w3 -> same_files w1 w3.
Proof. unfold same_files. intros (?&?&?&?) (?&?&?&?). repeat split; congruence. Qed.

Lemma ti_read_same (w : world) (p : nat) (t : option nat) :
  same_files w (snd (ti_read w p t)).
Proof.
  unfold ti_read. destruct t as [i|]; [|apply same_files_refl].
  destruct (iters w !! i) as [it|]; [|apply same_files_refl].
  destruct (engines w !! p) as [e|]; [|apply same_files_refl].
  destruct (idx e) as [ix|]; [|apply same_files_refl].
  destruct (data_files w !! t_fn e) as [lns|]; [|apply same_files_refl].
  destruct (iter_read (idx_conf ix) lns it) as [r it']. simpl.
  unfold same_files. simpl. auto.
Qed.

Lemma ti_iter_destroy_same (w : world) (t : option nat) :
  same_files w (ti_iter_destroy w t).
Proof. destruct t as [i|]; unfold same_files; simpl; auto. Qed.

Lemma alloc_iter_same (w : world) (r : result ti_iter) :
  same_files w (snd (alloc_iter w r)).
Proof. destruct r as [it|e]; unfold same_files; simpl; auto. Qed.

Lemma read_loop_same (w : world) (g : generator) (t : option nat) :
  same_files w (fst (fst (read_loop w g t))).
Proof.
  unfold read_loop. pose proof (ti_read_same w (_tabix (g_self g)) t) as Hr.
  destruct (ti_read w (_tabix (g_self g)) t) as [[r| |] w1]; simpl in *;
    [assumption| |];
    (eapply same_files_trans; [exact Hr|apply ti_iter_destroy_same]).
Qed.

Lemma alloc_read_loop_same (w : world) (g : generator) (r : result ti_iter) :
  same_files w (fst (fst (let '(t, w1) := alloc_iter w r in read_loop w1 g t))).
Proof.
  pose proof (alloc_iter_same w r) as Ha.
  destruct (alloc_iter w r) as [t w1]. simpl in Ha.
  eapply same_files_trans; [exact Ha|apply read_loop_same].
Qed.

Lemma gen_next_same (w : world) (g : generator) :
  same_files w (fst (fst (gen_next w g))).
Proof.
  unfold gen_next. destruct (g_state g) as [|t|].
  - destruct (g_start g) as [s|]; [destruct (c_int s)|];
      destruct (g_end g) as [e|]; try destruct (c_int e);
      try apply same_files_refl.
    + unfold ti_query. apply alloc_read_loop_same.
    + unfold ti_querys. apply alloc_read_loop_same.
  - apply read_loop_same.
  - apply same_files_refl.
Qed.

Lemma serve_same (w : world) (g : generator) (r : request) :
  same_files w (fst (fst (serve w g r))).
Proof.
  destruct r as [| |e]; simpl.
  - apply gen_next_same.
  - unfold gen_close. destruct (g_state g) as [|t|]; simpl;
      try apply same_files_refl. apply ti_iter_destroy_same.
  - unfold gen_throw. destruct (g_state g) as [|t|]; simpl;
      try apply same_files_refl. apply ti_iter_destroy_same.
Qed.

(** A query never writes: whatever a caller asks of a generator, in
    whatever state, and however far a loop over it runs, the data files,
    the index files, the open engines and their streams are as before;
    only the table of native iterators changes. *)
Theorem query_leaves_files_and_engines (w : world) (g : generator) :
  (forall rs : list request, same_files w (fst (serve_all w g rs))) /\
  (forall (fuel : nat) (recs : list string) (e : option exn) (w' : world),
     iterate fuel w g = Some (recs, e, w') -> same_files w w').
Proof.
  split.
  - intros rs. revert w g. induction rs as [|r rest IH]; intros w g; simpl.
    + apply same_files_refl.
    + pose proof (serve_same w g r) as Hs.
      destruct (serve w g r) as [[w1 g1] ans]. simpl in Hs.
      eapply same_files_trans; [exact Hs|apply IH].
  - intros fuel. revert w g. induction fuel as [|f IH]; intros w g recs e w'; simpl;
      [discriminate|].
    pose proof (gen_next_same w g) as Hs.
    destruct (gen_next w g) as [[w1 g1] [r| |e1]]; simpl in *.
    + destruct (iterate f w1 g1) as [[[rs e2] w2]|] eqn:Hit; [|discriminate].
      intros [= <- <- <-]. eapply same_files_trans; [exact Hs|]. eapply IH. exact Hit.
    + intros [= <- <- <-]. assumption.
    + intros [= <- <- <-]. assumption.
Qed.

Lemma query_leaves_files_and_engines_witness :
  same_files example_world
    (mk_world (data_files example_world) (index_files example_world)
       (open_streams example_world) (engines example_world) ∅ 4).
Proof.
  apply (proj2 (query_leaves_files_and_engines example_world
                  (Tabix_call example_tabix "chr1" (Some 2090) (Some 3000)))
           2%nat ["chr1 ENSEMBL exon 2090 3000"] None).
  vm_compute. reflexivity.
Defined.

(** ** Queries in both forms, read in part or in full *)

Lemma proceed_yield (rest : world -> generator -> list string * world * generator)
    (w : world) (g : generator) (r : string) :
  fst (fst (proceed rest (w, g, Yield r))) = r :: fst (fst (rest w g)).
Proof. simpl. destruct (rest w g) as [[rs w'] g']. reflexivity. Qed.

Lemma advance_read_loop (ix : ti_index_t) (lns : list line) (p i : nat) :
  forall (k : nat) (w : world) (g : generator) (it : ti_iter),
    _tabix (g_self g) = p ->
    engine_ready w p ix lns -> iters w !! i = Some it ->
    fst (fst (proceed (advance k) (read_loop w g (Some i))))
    = take (S k) (emitted (idx_conf ix) lns (it_seq it) (it_beg it) (it_end it)
                    (it_todo it)).
Proof.
  induction k as [|k IH]; intros w g it Hp Hready Hit;
    unfold read_loop; rewrite Hp, (ti_read_live w p i ix lns it) by assumption;
    unfold iter_read;
    destruct (scan (idx_conf ix) lns (it_seq it) (it_beg it) (it_end it) (it_todo it))
      as [[r rest]|] eqn:Hscan.
  - apply scan_some in Hscan as [He _]. rewrite He. reflexivity.
  - apply scan_none in Hscan. rewrite Hscan. reflexivity.
  - apply scan_some in Hscan as [He _]. rewrite He.
    cbn [fst snd read_of]. rewrite proceed_yield.
    cbn [advance gen_next set_state g_state]. rewrite read_loop_set_state.
    set (it' := mk_iter (it_seq it) (it_beg it) (it_end it) rest).
    set (w1 := mk_world _ _ _ _ _ _).
    rewrite (IH w1 g it').
    + reflexivity.
    + assumption.
    + destruct Hready as (e & He' & Hix & Hl). exists e. auto.
    + unfold w1. simpl. apply lookup_insert_eq.
  - apply scan_none in Hscan. rewrite Hscan. reflexivity.
Qed.

Lemma advance_started (w : world) (g : generator) (ix : ti_index_t) (lns : list line)
    (parse : list string -> result region) (r : region) (k : nat) :
  engine_ready w (_tabix (g_self g)) ix lns ->
  build_index (idx_conf ix) lns = Ok ix ->
  parse (names ix) = Ok r ->
  is_Some (names ix !! r_tid r) ->
  fst (fst (proceed (advance k)
              (let '(t, w1) := alloc_iter w (start_query w (_tabix (g_self g)) parse) in
               read_loop w1 g t)))
  = take (S k) (scan_for ix lns parse).
Proof.
  intros Hready Hb Hp Hname.
  destruct (query_iterator w _ ix lns parse r Hready Hb Hp Hname)
    as (it & w1 & Ha & Hit & Hr1 & He); rewrite Ha.
  rewrite (advance_read_loop ix lns (_tabix (g_self g)) (next_ptr w) k w1 g it);
    [rewrite He; reflexivity|reflexivity|assumption|assumption].
Qed.

(** A loop left by [break] after [k] records has read the first [k]
    records of the full answer, in the same order (all of them when there
    are fewer than [k]): for a query by name and range, the name in the
    dictionary and the bounds, [qs <= qe], fitting a C [int], and for a
    query by a region string that the engine parses. *)
Theorem early_exit_reads_prefix (w : world) (self : Tabix) (ix : ti_index_t)
    (lns : list line) (k : nat) :
  engine_ready w (_tabix self) ix lns ->
  build_index (idx_conf ix) lns = Ok ix ->
  (forall (name : string) (qs qe : Z),
     name ∈ names ix -> qs <= qe -> c_int qs = true -> c_int qe = true ->
     fst (fst (advance k w (Tabix_call self name (Some qs) (Some qe))))
     = take k (linear_scan (idx_conf ix) name qs qe 0 lns)) /\
  (forall (reg : string) (r : region),
     parse_region (names ix) reg = Ok r ->
     fst (fst (advance k w (Tabix_call self reg None None)))
     = take k (linear_scan (idx_conf ix) (region_name reg) (r_beg r) (r_end r) 0 lns)).
Proof.
  intros Hready Hb. split.
  - intros name qs qe Hname Hle Hqs Hqe. destruct k as [|k]; [reflexivity|].
    destruct (region_of_triple_ok (names ix) name qs qe Hname Hle) as (tid & Hp & Htid).
    pose proof (advance_started w (mk_gen self name (Some qs) (Some qe) GenCreated) ix lns
                  (fun nms => region_of_triple nms name qs qe) _ k Hready Hb Hp
                  (ex_intro _ name Htid)) as Hadv.
    rewrite <- (scan_for_triple (idx_conf ix) lns ix name qs qe Hb eq_refl).
    cbn [advance Tabix_call gen_next g_state g_start g_end g_self g_region].
    rewrite Hqs, Hqe. exact Hadv.
  - intros reg r Hp. destruct k as [|k]; [reflexivity|].
    pose proof (advance_started w (mk_gen self reg None None GenCreated) ix lns
                  (fun nms => parse_region nms reg) r k Hready Hb Hp
                  (parse_region_known _ _ _ Hp)) as Hadv.
    rewrite <- (scan_for_string (idx_conf ix) lns ix reg r eq_refl Hp).
    exact Hadv.
Qed.

Lemma early_exit_reads_prefix_witness :
  fst (fst (advance 1 example_world (Tabix_call example_tabix "chr1" (Some 0) (Some 5000))))
  = ["chr1 ENSEMBL UTR 1737 2090"] /\
  fst (fst (advance 1 example_world (Tabix_call example_tabix "chr1:2090-3000" None None)))
  = ["chr1 ENSEMBL UTR 1737 2090"].
Proof.
  assert (Hready : engine_ready example_world (_tabix example_tabix)
                     example_index example_lines)
    by (eexists; repeat split; reflexivity).
  split.
  - apply (proj1 (early_exit_reads_prefix example_world example_tabix example_index
                    example_lines 1 Hready eq_refl) "chr1" 0 5000).
    + vm_compute. apply list_elem_of_In. simpl. auto.
    + lia.
    + reflexivity.
    + reflexivity.
  - apply (proj2 (early_exit_reads_prefix example_world example_tabix example_index
                    example_lines 1 Hready eq_refl) "chr1:2090-3000"
             (mk_region 0 2089 3000)).
    reflexivity.
Defined.

(** The two forms of a query agree: a region string that the engine
    parses to a sequence with start [b] and end [e], [b <= e], both
    fitting a C [int], yields the same records as the call with that
    sequence name, [b] and [e] given as numbers. *)
Theorem string_query_agrees_with_triple (w : world) (self : Tabix) (ix : ti_index_t)
    (lns : list line) (reg : string) (r : region) (fuel : nat) :
  engine_ready w (_tabix self) ix lns ->
  build_index (idx_conf ix) lns = Ok ix ->
  parse_region (names ix) reg = Ok r ->
  r_beg r <= r_end r ->
  c_int (r_beg r) = true ->
  c_int (r_end r) = true ->
  (length (linear_scan (idx_conf ix) (region_name reg) (r_beg r) (r_end r) 0 lns)
     < fuel)%nat ->
  exists w1 w2,
    iterate fuel w (Tabix_call self reg None None)
    = Some (linear_scan (idx_conf ix) (region_name reg) (r_beg r) (r_end r) 0 lns,
            None, w1) /\
    iterate fuel w (Tabix_call self (region_name reg) (Some (r_beg r)) (Some (r_end r)))
    = Some (linear_scan (idx_conf ix) (region_name reg) (r_beg r) (r_end r) 0 lns,
            None, w2).
Proof.
  intros Hready Hb Hp Hle Hcb Hce Hfuel. destruct fuel as [|f]; [lia|].
  cbn [iterate Tabix_call gen_next g_state g_start g_end g_self g_region].
  rewrite Hcb, Hce. unfold ti_querys, ti_query.
  assert (Hname : region_name reg ∈ names ix).
  { apply list_elem_of_lookup. exists (r_tid r). apply seq_id_lookup.
    apply parse_region_tid. assumption. }
  destruct (region_of_triple_ok (names ix) (region_name reg) (r_beg r) (r_end r)
              Hname Hle) as (tid & Hp3 & Htid).
  destruct (drain_started w (mk_gen self reg None None GenCreated) ix lns
              (fun nms => parse_region nms reg) r f Hready Hb Hp
              (parse_region_known _ _ _ Hp)) as (w1 & H1).
  { rewrite (scan_for_string (idx_conf ix) lns ix reg r eq_refl Hp). lia. }
  destruct (drain_started w
              (mk_gen self (region_name reg) (Some (r_beg r)) (Some (r_end r)) GenCreated)
              ix lns (fun nms => region_of_triple nms (region_name reg) (r_beg r) (r_end r))
              _ f Hready Hb Hp3 (ex_intro _ _ Htid)) as (w2 & H2).
  { rewrite (scan_for_triple (idx_conf ix) lns ix _ _ _ Hb eq_refl). lia. }
  rewrite (scan_for_string (idx_conf ix) lns ix reg r eq_refl Hp) in H1.
  rewrite (scan_for_triple (idx_conf ix) lns ix _ _ _ Hb eq_refl) in H2.
  exists w1, w2. split; assumption.
Qed.

Lemma string_query_agrees_with_triple_witness :
  exists w1 w2,
    iterate 3 example_world (Tabix_call example_tabix "chr1:2090-3000" None None)
    = Some (["chr1 ENSEMBL UTR 1737 2090"; "chr1 ENSEMBL exon 2090 3000"], None, w1) /\
    iterate 3 example_world (Tabix_call example_tabix "chr1" (Some 2089) (Some 3000))
    = Some (["chr1 ENSEMBL UTR 1737 2090"; "chr1 ENSEMBL exon 2090 3000"], None, w2).
Proof.
  apply (string_query_agrees_with_triple example_world example_tabix example_index
           example_lines "chr1:2090-3000" (mk_region 0 2089 3000) 3).
  - eexists. repeat split; reflexivity.
  - reflexivity.
  - reflexivity.
  - simpl. lia.
  - reflexivity.
  - reflexivity.
  - simpl. lia.
Defined.

(** The query by one name of the dictionary that has no colon, run to its
    end. *)
Lemma name_query_drained (w : world) (self : Tabix) (ix : ti_index_t)
    (lns : list line) (name : string) (f : nat) :
  engine_ready w (_tabix self) ix lns ->
  build_index (idx_conf ix) lns = Ok ix ->
  name ∈ names ix ->
  split_at ":" name = None ->
  (length (sequence_records (idx_conf ix) name lns) <= f)%nat ->
  exists w',
    iterate (S f) w (Tabix_call self name None None)
    = Some (sequence_records (idx_conf ix) name lns, None, w').
Proof.
  intros Hready Hb Hin Hname Hfuel.
  cbn [iterate Tabix_call gen_next g_state g_start g_end g_self g_region].
  unfold ti_querys.
  destruct (seq_id (names ix) name) as [tid|] eqn:Htid;
    [|apply seq_id_none in Htid; contradiction].
  assert (Hp : parse_region (names ix) name = Ok (mk_region tid 0 sentinel_end)).
  { unfold parse_region, lookup_seq. rewrite Hname, Htid. reflexivity. }
  assert (Hscan : scan_for ix lns (fun nms => parse_region nms name)
                  = sequence_records (idx_conf ix) name lns).
  { rewrite <- (whole_scan _ _ _ name Hb). unfold scan_for. rewrite Hp.
    cbn [r_tid r_beg r_end]. rewrite (seq_id_lookup _ _ _ Htid). reflexivity. }
  destruct (drain_started w (mk_gen self name None None GenCreated) ix lns
              (fun nms => parse_region nms name) _ f Hready Hb Hp
              (parse_region_known _ _ _ Hp)) as (w' & H1).
  { rewrite Hscan. assumption. }
  rewrite Hscan in H1. exists w'. assumption.
Qed.

(** A query by sequence name alone, as in [t('chr1')], for a name of the
    dictionary that has no colon, yields every indexed record of that
    sequence, in file order. *)
Theorem name_query_yields_whole_sequence (w : world) (self : Tabix) (ix : ti_index_t)
    (lns : list line) (name : string) (fuel : nat) :
  engine_ready w (_tabix self) ix lns ->
  build_index (idx_conf ix) lns = Ok ix ->
  name ∈ names ix ->
  split_at ":" name = None ->
  (length (sequence_records (idx_conf ix) name lns) < fuel)%nat ->
  exists w',
    iterate fuel w (Tabix_call self name None None)
    = Some (sequence_records (idx_conf ix) name lns, None, w').
Proof.
  intros Hready Hb Hin Hname Hfuel. destruct fuel as [|f]; [lia|].
  apply name_query_drained; try assumption. lia.
Qed.

Lemma name_query_yields_whole_sequence_witness :
  exists w',
    iterate 3 example_world (Tabix_call example_tabix "chr1" None None)
    = Some (["chr1 ENSEMBL UTR 1737 2090"; "chr1 ENSEMBL exon 2090 3000"], None, w').
Proof.
  apply (name_query_yields_whole_sequence example_world example_tabix example_index
           example_lines "chr1" 3).
  - eexists. repeat split; reflexivity.
  - reflexivity.
  - vm_compute. apply list_elem_of_In. simpl. auto.
  - reflexivity.
  - simpl. lia.
Defined.

(** ** One native query for each call *)

Lemma ti_read_next_ptr (w : world) (p : nat) (t : option nat) :
  next_ptr (snd (ti_read w p t)) = next_ptr w.
Proof.
  unfold ti_read. destruct t as [i|]; [|reflexivity].
  destruct (iters w !! i) as [it|]; [|reflexivity].
  destruct (engines w !! p) as [e|]; [|reflexivity].
  destruct (idx e) as [ix|]; [|reflexivity].
  destruct (data_files w !! t_fn e) as [lns|]; [|reflexivity].
  destruct (iter_read (idx_conf ix) lns it) as [r it']. reflexivity.
Qed.

Lemma read_loop_next_ptr (w : world) (g : generator) (t : option nat) :
  next_ptr (fst (fst (read_loop w g t))) = next_ptr w /\
  g_state (snd (fst (read_loop w g t))) <> GenCreated.
Proof.
  unfold read_loop. pose proof (ti_read_next_ptr w (_tabix (g_self g)) t) as Hr.
  destruct (ti_read w (_tabix (g_self g)) t) as [[r| |] w1]; simpl in *.
  - split; [assumption|discriminate].
  - split; [|discriminate]. destruct t; simpl; assumption.
  - split; [|discriminate]. destruct t; simpl; assumption.
Qed.

Lemma alloc_read_loop_next_ptr (w : world) (g : generator) (r : result ti_iter) :
  (next_ptr w
     <= next_ptr (fst (fst (let '(t, w1) := alloc_iter w r in read_loop w1 g t)))
     <= S (next_ptr w))%nat /\
  g_state (snd (fst (let '(t, w1) := alloc_iter w r in read_loop w1 g t))) <> GenCreated.
Proof.
  destruct r as [it|e]; cbn [alloc_iter].
  - match goal with |- context [read_loop ?w1 g ?t] =>
      destruct (read_loop_next_ptr w1 g t) as [H1 H2] end.
    split; [|assumption]. rewrite H1. simpl. lia.
  - destruct (read_loop_next_ptr w g None) as [H1 H2].
    split; [|assumption]. rewrite H1. lia.
Qed.

(** A generator that has left its created state never allocates. *)
Lemma serve_started_next_ptr (w : world) (g : generator) (r : request) :
  g_state g <> GenCreated ->
  next_ptr (fst (fst (serve w g r))) = next_ptr w /\
  g_state (snd (fst (serve w g r))) <> GenCreated.
Proof.
  intros Hst. destruct r as [| |e]; simpl.
  - unfold gen_next. destruct (g_state g) as [|t|] eqn:Hg; [congruence| |].
    + apply read_loop_next_ptr.
    + simpl. split; [reflexivity|congruence].
  - unfold gen_close. destruct (g_state g) as [|t|] eqn:Hg; [congruence| |]; simpl.
    + split; [destruct t; reflexivity|discriminate].
    + split; [reflexivity|congruence].
  - unfold gen_throw. destruct (g_state g) as [|t|] eqn:Hg; [congruence| |]; simpl.
    + split; [destruct t; reflexivity|discriminate].
    + split; [reflexivity|congruence].
Qed.

Lemma serve_all_started_next_ptr (rs : list request) :
  forall (w : world) (g : generator),
    g_state g <> GenCreated ->
    next_ptr (fst (serve_all w g rs)) = next_ptr w.
Proof.
  induction rs as [|r rest IH]; intros w g Hst; simpl; [reflexivity|].
  pose proof (serve_started_next_ptr w g r Hst) as [H1 H2].
  destruct (serve w g r) as [[w1 g1] ans]. simpl in *.
  rewrite (IH w1 g1 H2). assumption.
Qed.

(** The first request to a fresh generator hands out at most one native
    address and leaves the created state. *)
Lemma serve_created_next_ptr (w : world) (self : Tabix) (region : string)
    (start end_ : option Z) (r : request) :
  (next_ptr w
     <= next_ptr (fst (fst (serve w (Tabix_call self region start end_) r)))
     <= S (next_ptr w))%nat /\
  g_state (snd (fst (serve w (Tabix_call self region start end_) r))) <> GenCreated.
Proof.
  destruct r as [| |e]; simpl.
  - unfold gen_next. simpl. destruct start as [s|]; [destruct (c_int s)|];
      destruct end_ as [e|]; try destruct (c_int e); simpl;
      try (split; [lia|discriminate]).
    + unfold ti_query. apply alloc_read_loop_next_ptr.
    + unfold ti_querys. apply alloc_read_loop_next_ptr.
  - split; [lia|discriminate].
  - split; [lia|discriminate].
Qed.

(** The native query of a call is issued once, by the first request to
    its generator: over any history of requests at most one native address
    is handed out. *)
Theorem one_native_query_per_call (w : world) (self : Tabix) (region : string)
    (start end_ : option Z) (rs : list request) :
  (next_ptr w <= next_ptr (fst (serve_all w (Tabix_call self region start end_) rs))
     <= S (next_ptr w))%nat.
Proof.
  destruct rs as [|r rest]; simpl; [lia|].
  pose proof (serve_created_next_ptr w self region start end_ r) as [H1 H2].
  destruct (serve w (Tabix_call self region start end_) r) as [[w1 g1] ans].
  simpl in *. rewrite (serve_all_started_next_ptr rest w1 g1 H2). exact H1.
Qed.

(** ** [sequences] and queries by name *)






